(** * A finite-state machine with named transitions and listeners

    Shallow embedding of [src/lib/fsm.ts]: the classes [FSMTransition] and
    [FSMInstance] with the methods [on], [off], [can], [move] and [set].

    The methods are written in a small state-and-exception monad over a
    [World].  A world holds the fields of the instance and the store of
    the listener arrays: [on] pushes onto an array in place, [off] splices
    it in place, and [move] iterates the very array object that the
    [listeners] map points to, while the callbacks it invokes are free to
    call back into the instance.  Arrays therefore live in a store and the
    [listeners] map holds references into it.

    Callbacks are handles compared by identity.  What the code of a
    callback does when called is a parameter of [move], a [ListenerCode]:
    a function of the callback, its arguments and the world, giving the
    world it leaves and the value it throws, if any.  Listeners that do
    not return are outside the model.  Every method reports, besides the
    world it leaves and how it completed, the listener calls it made. *)

From Stdlib Require Import ZArith.
From stdpp Require Import base strings gmap list fin_maps.

(** ** Data model *)

(** A callback is a closure.  The code stores callbacks, compares them with
    [===] (reference identity) and calls them; a callback is a handle, and
    what calling it does is given separately (see [ListenerCode]). *)
Abbreviation FSMTransitionCallback := nat (only parsing).

(** A reference to an array of callbacks in the store. *)
Abbreviation ArrayRef := nat (only parsing).

(** [Array.prototype.indexOf] on an array of strings: the first index
    holding [x], or [-1]. *)
Fixpoint indexOf_from (i : Z) (x : string) (l : list string) : Z :=
  match l with
  | [] => (-1)%Z
  | y :: r => if decide (y = x) then i else indexOf_from (i + 1)%Z x r
  end.

Definition indexOf (x : string) (l : list string) : Z := indexOf_from 0%Z x l.

(** An array of strings inside a template literal: the entries joined by
    commas. *)
Fixpoint join_comma (l : list string) : string :=
  match l with
  | [] => ""
  | [x] => x
  | x :: r => x +:+ "," +:+ join_comma r
  end.

Module FSMTransition.

Record t := make {
  name : string;
  sources : list string;
  dest : string;
  willcard : bool
}.

(** [constructor(name, sources, dest)]: the parameter properties are
    assigned first, then a source list holding the token is replaced. *)
Definition new (name : string) (sources : list string) (dest : string) : t :=
  if bool_decide (indexOf "*" sources ≠ (-1)%Z)
  then make name ["*"] dest true
  else make name sources dest false.

End FSMTransition.

Abbreviation FSMTransition := FSMTransition.t.

(** The fields of an [FSMInstance].  [listeners] maps a state to the array
    object holding its callbacks. *)
Record FSMInstance := {
  _state : string;
  states : gset string;
  transitions : gmap string FSMTransition;
  paths : gmap string (gset string);
  listeners : gmap string ArrayRef
}.

Definition with_state (s : string) (i : FSMInstance) : FSMInstance :=
  {| _state := s; states := states i; transitions := transitions i;
     paths := paths i; listeners := listeners i |}.

Definition with_states (x : gset string) (i : FSMInstance) : FSMInstance :=
  {| _state := _state i; states := x; transitions := transitions i;
     paths := paths i; listeners := listeners i |}.

Definition with_transitions (x : gmap string FSMTransition) (i : FSMInstance)
  : FSMInstance :=
  {| _state := _state i; states := states i; transitions := x;
     paths := paths i; listeners := listeners i |}.

Definition with_paths (x : gmap string (gset string)) (i : FSMInstance)
  : FSMInstance :=
  {| _state := _state i; states := states i; transitions := transitions i;
     paths := x; listeners := listeners i |}.

Definition with_listeners (x : gmap string ArrayRef) (i : FSMInstance)
  : FSMInstance :=
  {| _state := _state i; states := states i; transitions := transitions i;
     paths := paths i; listeners := x |}.

(** The instance together with the store of callback arrays. *)
Record World := {
  this : FSMInstance;
  heap : gmap ArrayRef (list FSMTransitionCallback)
}.

(** ** Effects *)

(** What a method throws: one of the [RangeError]s that [move] and [set]
    create themselves, or a value that the code of a listener threw and
    that [move], having no handler, lets through.  The two are kept apart
    by where they come from, not by their class: [rejected] says that the
    method raised the error itself, and a value a listener threw may be a
    [RangeError] as well (see [range_error]). *)
Inductive Exception :=
  | RangeError (message : string)
  | Escaped (value : nat).

Inductive Completion (A : Type) :=
  | Normal (v : A)
  | Throw (e : Exception).

Arguments Normal {A} v.
Arguments Throw {A} e.

(** One call [listener(this, from, to)] made by [move]; [arg_instance] is
    the instance as the listener finds it on entry. *)
Record Invocation := {
  callee : FSMTransitionCallback;
  arg_instance : FSMInstance;
  arg_from : string;
  arg_to : string
}.

(** What running a method does: the world it leaves, the listener calls it
    made, in order, and how it completed. *)
Record Outcome (A : Type) := {
  after : World;
  calls : list Invocation;
  completion : Completion A
}.

Arguments after {A} o.
Arguments calls {A} o.
Arguments completion {A} o.

Definition M (A : Type) : Type := World → Outcome A.

#[global] Instance M_ret : MRet M := λ A v w,
  {| after := w; calls := []; completion := Normal v |}.

#[global] Instance M_bind : MBind M := λ A B f m w,
  let o := m w in
  match completion o with
  | Normal v =>
      let o' := f v (after o) in
      {| after := after o'; calls := calls o ++ calls o';
         completion := completion o' |}
  | Throw e => {| after := after o; calls := calls o; completion := Throw e |}
  end.

Definition throw {A : Type} (e : Exception) : M A := λ w,
  {| after := w; calls := []; completion := Throw e |}.

Definition get_this : M FSMInstance := λ w,
  {| after := w; calls := []; completion := Normal (this w) |}.

Definition modify_this (f : FSMInstance → FSMInstance) : M unit := λ w,
  {| after := {| this := f (this w); heap := heap w |}; calls := [];
     completion := Normal () |}.

(** The contents of the array object [a]. *)
Definition read_array (a : ArrayRef) : M (list FSMTransitionCallback) := λ w,
  {| after := w; calls := []; completion := Normal (default [] (heap w !! a)) |}.

Definition write_array (a : ArrayRef) (l : list FSMTransitionCallback)
  : M unit := λ w,
  {| after := {| this := this w; heap := <[a := l]> (heap w) |}; calls := [];
     completion := Normal () |}.

(** The array literal [[]]: a new, empty array object. *)
Definition new_array : M ArrayRef := λ w,
  let a := fresh (dom (heap w)) in
  {| after := {| this := this w; heap := <[a := []]> (heap w) |}; calls := [];
     completion := Normal a |}.

(** The callbacks registered for [state]: the contents of the array that
    the [listeners] map holds for it, or none. *)
Definition callbacks (state : string) (w : World) : list FSMTransitionCallback :=
  match listeners (this w) !! state with
  | Some a => default [] (heap w !! a)
  | None => []
  end.

(** What calling a listener does: given the listener, the arguments [from]
    and [to] and the world it is called in (the argument [instance] is the
    one instance of that world), the world it leaves and the value it
    threw, if it threw.  The code of a listener may call any method of the
    instance, [move] included; the calls such a nested [move] makes belong
    to that nested [move]. *)
Definition ListenerCode : Type :=
  FSMTransitionCallback → string → string → World → World * option nat.

(** ** The methods of [FSMInstance] *)

(** [new FSMInstance(init)]: the field initialisers, then the constructor
    body. *)
Definition constructor (init : string) : World :=
  {| this := {| _state := init; states := ∅; transitions := ∅; paths := ∅;
                listeners := ∅ |};
     heap := ∅ |}.

(** The getter [state]. *)
Definition state : M string :=
  self ← get_this; mret (_state self).

(** [on(state, listener)] *)
Definition on (state : string) (listener : FSMTransitionCallback)
  : M FSMInstance :=
  self ← get_this;
  (* const listeners = this.listeners.get(state) ?? []; *)
  a ← match listeners self !! state with
      | Some a => mret a
      | None => new_array
      end;
  (* listeners.push(listener); *)
  l ← read_array a;
  write_array a (l ++ [listener]);;
  (* this.listeners.set(state, listeners); *)
  modify_this (λ i, with_listeners (<[state := a]> (listeners i)) i);;
  get_this.

(** The loop of [off]: the index of the first entry that is [listener]. *)
Fixpoint first_index (listener : FSMTransitionCallback)
    (l : list FSMTransitionCallback) (i : nat) : option nat :=
  match l with
  | [] => None
  | x :: r => if decide (x = listener) then Some i
              else first_index listener r (S i)
  end.

(** [off(state, listener?)].  When [state] has no array, [?? []] yields a
    temporary empty array that is never stored and the loop does not run. *)
Definition off (state : string) (listener : option FSMTransitionCallback)
  : M FSMInstance :=
  match listener with
  | Some listener =>
      self ← get_this;
      match listeners self !! state with
      | Some a =>
          l ← read_array a;
          match first_index listener l 0 with
          | Some i => write_array a (delete i l)   (* listeners.splice(i, 1) *)
          | None => mret ()
          end
      | None => mret ()
      end
  | None =>
      modify_this (λ i, with_listeners (delete state (listeners i)) i)
  end;;
  get_this.

(** [can(name)] *)
Definition can (name : string) : M bool :=
  self ← get_this;
  match transitions self !! name with
  | None => mret false
  | Some transition =>
      if negb (FSMTransition.willcard transition)
         && bool_decide (indexOf (_state self) (FSMTransition.sources transition)
                         = (-1)%Z)
      then mret false
      else mret true
  end.

(** The argument [sources : string[] | string] of [set]. *)
Inductive SourcesArg :=
  | OneSource (source : string)
  | SourceArray (sources : list string).

(** [if (!Array.isArray(sources)) sources = [sources]] *)
Definition source_list (sources : SourcesArg) : list string :=
  match sources with
  | OneSource s => [s]
  | SourceArray l => l
  end.

(** The body of the [forEach] callback in [set], for one [source]. *)
Definition add_path (dest : string) (i : FSMInstance) (source : string)
  : FSMInstance :=
  let i := with_states ({[source]} ∪ states i) i in
  match paths i !! source with
  | Some path => with_paths (<[source := {[dest]} ∪ path]> (paths i)) i
  | None => with_paths (<[source := {[dest]}]> (paths i)) i
  end.

(** [set(name, sources, dest)] *)
Definition set (name : string) (sources : SourcesArg) (dest : string)
  : M FSMInstance :=
  self ← get_this;
  if bool_decide (is_Some (transitions self !! name))
  then throw (RangeError
                ("FSMInstance.set(): transition '" +:+ name +:+ "' already exists"))
  else
    let sources := source_list sources in
    let transition := FSMTransition.new name sources dest in
    modify_this (λ i, with_transitions (<[name := transition]> (transitions i)) i);;
    modify_this (λ i, with_states ({[dest]} ∪ states i) i);;
    modify_this (λ i, foldl (add_path dest) i sources);;
    get_this.

Section Dispatch.

Variable listener_code : ListenerCode.

(** The call [listener(this, from, dest)]. *)
Definition call (listener : FSMTransitionCallback) (from to : string)
  : M unit := λ w,
  let r := listener_code listener from to w in
  {| after := r.1;
     calls := [{| callee := listener; arg_instance := this w;
                  arg_from := from; arg_to := to |}];
     completion := match r.2 with
                   | None => Normal ()
                   | Some v => Throw (Escaped v)
                   end |}.

(** [Array.prototype.forEach] on the array object [a], from index [k] with
    [n] indices left to visit: the length was read once at the start,
    each index is looked up in the array as it is by then, and an index
    that is no longer present is skipped. *)
Fixpoint forEach_from (a : ArrayRef) (from to : string) (k n : nat)
  : M unit :=
  match n with
  | 0 => mret ()
  | S n' =>
      l ← read_array a;
      match l !! k with
      | Some kValue => call kValue from to
      | None => mret ()
      end;;
      forEach_from a from to (S k) n'
  end.

(** [listeners.forEach((listener) => listener(this, from, dest))] *)
Definition forEach (a : ArrayRef) (from to : string) : M unit :=
  l ← read_array a;
  forEach_from a from to 0 (length l).

(** [move(name)] *)
Definition move (name : string) : M FSMInstance :=
  self ← get_this;
  match transitions self !! name with
  | None =>
      throw (RangeError
               ("FSMInstance.move(): not found transition '" +:+ name +:+ "'"))
  | Some transition =>
      let sources := FSMTransition.sources transition in
      let dest := FSMTransition.dest transition in
      if negb (FSMTransition.willcard transition)
         && bool_decide (indexOf (_state self) sources = (-1)%Z)
      then
        throw (RangeError
                 ("FSMInstance.move(): current state expected is '"
                  +:+ join_comma sources +:+ "', actual is '"
                  +:+ _state self +:+ "'"))
      else
        let from := _state self in
        modify_this (with_state dest);;
        self ← get_this;
        match listeners self !! dest with
        | Some a => forEach a from dest
        | None => mret ()
        end;;
        get_this
  end.

End Dispatch.

(** ** Vocabulary of the statements *)

(** A transition may be taken from the current state of [w]. *)
Definition legal (t : FSMTransition) (w : World) : Prop :=
  FSMTransition.willcard t = true ∨ _state (this w) ∈ FSMTransition.sources t.

(** The method threw one of its own [RangeError]s. *)
Definition rejected {A : Type} (o : Outcome A) : Prop :=
  ∃ message, completion o = Throw (RangeError message).

(** The world [w] with the current state replaced. *)
Definition switched (dest : string) (w : World) : World :=
  {| this := with_state dest (this w); heap := heap w |}.

(** [dest] is recorded as reachable from [s], a known state. *)
Definition path_recorded (s dest : string) (i : FSMInstance) : Prop :=
  s ∈ states i ∧ ∃ path, paths i !! s = Some path ∧ dest ∈ path.

(** A listener whose code returns normally and leaves the world as it
    found it. *)
Definition quiet (code : ListenerCode) (listener : FSMTransitionCallback)
  : Prop :=
  ∀ from to w, code listener from to w = (w, None).

(** A listener whose code returns normally and, run while the array [a]
    starts with the entries [ls], leaves it starting with them: it may
    append to the array, or change anything else, but it takes none of
    these entries out. *)
Definition undisturbing (code : ListenerCode) (a : ArrayRef)
    (ls : list FSMTransitionCallback) (listener : FSMTransitionCallback)
  : Prop :=
  ∀ from to w,
    ls `prefix_of` default [] (heap w !! a) →
    (code listener from to w).2 = None
    ∧ ls `prefix_of` default [] (heap (code listener from to w).1 !! a).

(** Every array the [listeners] map refers to is in the store, and no two
    states refer to the same array. *)
Definition separated (w : World) : Prop :=
  (∀ s a, listeners (this w) !! s = Some a → is_Some (heap w !! a))
  ∧ (∀ s1 s2 a, listeners (this w) !! s1 = Some a →
                listeners (this w) !! s2 = Some a → s1 = s2).

(** The index covers the transitions: the destination of every stored
    transition is a known state, and so is each of its stored sources,
    with the destination recorded as reachable from it. *)
Definition indexed (i : FSMInstance) : Prop :=
  ∀ name t, transitions i !! name = Some t →
    FSMTransition.dest t ∈ states i
    ∧ ∀ s, s ∈ FSMTransition.sources t →
           path_recorded s (FSMTransition.dest t) i.

(** The transitions cover the index: whenever [d] is in the paths set of
    [s], some stored transition leads to [d] and may be taken from [s]. *)
Definition realisable (i : FSMInstance) : Prop :=
  ∀ s path d, paths i !! s = Some path → d ∈ path →
    ∃ name t, transitions i !! name = Some t
              ∧ FSMTransition.dest t = d
              ∧ (FSMTransition.willcard t = true
                 ∨ s ∈ FSMTransition.sources t).

(** The values that the code of a listener throws are numbered.  Number
    [0] stands for an object of class [RangeError], whatever its message;
    every other number stands for a value of another class. *)
Definition range_error_value : nat := 0.

(** The value that the caller of a method catches when the method
    completes with [Throw e]. *)
Definition thrown_value (e : Exception) : nat :=
  match e with
  | RangeError _ => range_error_value
  | Escaped v => v
  end.

(** [e] is of class [RangeError]: raised by a method itself, or let
    through from a listener. *)
Definition range_error (e : Exception) : Prop :=
  thrown_value e = range_error_value.

(** What a listener does whose code is one call of a method of the
    instance, with no handler around it: the world the method leaves, and
    what the method threw, if it threw. *)
Definition calling {A : Type} (m : M A) (w : World) : World * option nat :=
  let o := m w in
  (after o,
   match completion o with
   | Normal _ => None
   | Throw e => Some (thrown_value e)
   end).

(** ** Listeners and instances used as examples *)

(** Listeners that return without touching the instance. *)
Definition passive_code : ListenerCode :=
  λ _ _ _ w, (w, None).

(** Listener [0] is [(instance) => instance.off(state, self)], [self]
    being the listener itself: when called it takes itself off [state].
    The other listeners do nothing. *)
Definition unregistering_code (state : string) : ListenerCode :=
  λ listener _ _ w,
    if decide (listener = 0) then (after (off state (Some 0) w), None)
    else (w, None).

(** Listener [0] is [() => { throw 7 }]; the other listeners do nothing. *)
Definition throwing_code : ListenerCode :=
  λ listener _ _ w,
    if decide (listener = 0) then (w, Some 7) else (w, None).

(** [new FSMInstance("A").on("C", l0).on("C", l1).set("go", "A", "C")] *)
Definition two_listeners : World :=
  after (set "go" (OneSource "A") "C"
    (after (on "C" 1 (after (on "C" 0 (constructor "A")))))).

(** [new FSMInstance("A").set("go", "A", "C").on("C", l0).on("C", l0)] *)
Definition same_listener_twice : World :=
  after (on "C" 0 (after (on "C" 0
    (after (set "go" (OneSource "A") "C" (constructor "A")))))).

(** Listener [0] is [(instance) => instance.on(state, x)]; the other
    listeners do nothing. *)
Definition registering_code (state : string) (x : FSMTransitionCallback)
  : ListenerCode :=
  λ listener _ _ w,
    if decide (listener = 0) then (after (on state x w), None)
    else (w, None).

(** Listener [0] is [(instance) => instance.off(state)]; the other
    listeners do nothing. *)
Definition clearing_code (state : string) : ListenerCode :=
  λ listener _ _ w,
    if decide (listener = 0) then (after (off state None w), None)
    else (w, None).

(** Listener [0] is [(instance) => instance.move(name)]; the other
    listeners do nothing.  The move it makes runs on the same instance
    with the same listeners, this one included, and what that move throws
    the listener throws.  [depth] is the number of nested calls the call
    stack still has room for: a call of the listener with none left
    throws the RangeError of the exhausted stack. *)
Fixpoint moving_code (depth : nat) (name : string) : ListenerCode :=
  λ listener _ _ w,
    if decide (listener = 0) then
      match depth with
      | 0 => (w, Some range_error_value)
      | S depth' => calling (move (moving_code depth' name) name) w
      end
    else (w, None).

(** [two_listeners] with the way back: [.set("back", "C", "A")] *)
Definition round_trip : World :=
  after (set "back" (OneSource "C") "A" two_listeners).



(** * Lemmas *)

Ltac run_m :=
  unfold state, can, set, on, off, mbind, M_bind, mret, M_ret, throw, get_this,
    modify_this, read_array, write_array, new_array in *;
  simpl in *.

(** ** [indexOf] *)

Lemma indexOf_from_range (i : Z) (x : string) (l : list string) :
  indexOf_from i x l = (-1)%Z ∨ (i ≤ indexOf_from i x l)%Z.
Proof.
  revert i. induction l as [|y r IH]; intros i; simpl.
  - by left.
  - destruct (decide (y = x)); [right; lia|].
    destruct (IH (i + 1)%Z) as [->|H]; [by left|right; lia].
Qed.

Lemma indexOf_from_absent (i : Z) (x : string) (l : list string) :
  (0 ≤ i)%Z → indexOf_from i x l = (-1)%Z ↔ x ∉ l.
Proof.
  revert i. induction l as [|y r IH]; intros i Hi; simpl.
  - split; [intros _; apply not_elem_of_nil|done].
  - destruct (decide (y = x)) as [->|Hne].
    + split; [lia|]. intros H. exfalso. apply H. left.
    + rewrite IH by lia. rewrite not_elem_of_cons.
      split; [intros ?; split; [congruence|done]|by intros [_ ?]].
Qed.

Lemma indexOf_absent (x : string) (l : list string) :
  indexOf x l = (-1)%Z ↔ x ∉ l.
Proof. by apply indexOf_from_absent. Qed.

(** The test both [can] and [move] make on a registered transition. *)
Lemma refused_iff (t : FSMTransition) (w : World) :
  negb (FSMTransition.willcard t)
  && bool_decide (indexOf (_state (this w)) (FSMTransition.sources t) = (-1)%Z)
  = false ↔ legal t w.
Proof.
  unfold legal. destruct (FSMTransition.willcard t); simpl.
  - naive_solver.
  - rewrite bool_decide_eq_false, indexOf_absent.
    split.
    + intros H. right. by destruct (decide (_state (this w) ∈ FSMTransition.sources t)).
    + intros [?|?]; [done|]. by intros ?.
Qed.

(** ** [FSMTransition] *)

Lemma new_wildcard (name : string) (sources : list string) (dest : string) :
  "*" ∈ sources →
  FSMTransition.new name sources dest = FSMTransition.make name ["*"] dest true.
Proof.
  intros H. unfold FSMTransition.new.
  rewrite bool_decide_eq_true_2; [done|].
  rewrite indexOf_absent. by intros ?.
Qed.

Lemma new_explicit (name : string) (sources : list string) (dest : string) :
  "*" ∉ sources →
  FSMTransition.new name sources dest = FSMTransition.make name sources dest false.
Proof.
  intros H. unfold FSMTransition.new.
  rewrite bool_decide_eq_false_2; [done|].
  rewrite indexOf_absent. by intros ?.
Qed.

Lemma new_dest (name : string) (sources : list string) (dest : string) :
  FSMTransition.dest (FSMTransition.new name sources dest) = dest.
Proof. unfold FSMTransition.new. by case_bool_decide. Qed.

(** ** [can] *)

Lemma can_unregistered (name : string) (w : World) :
  transitions (this w) !! name = None →
  can name w = {| after := w; calls := []; completion := Normal false |}.
Proof. intros H. run_m. by rewrite H. Qed.

Lemma can_registered (name : string) (t : FSMTransition) (w : World) :
  transitions (this w) !! name = Some t →
  can name w = {| after := w; calls := [];
                  completion := Normal (bool_decide (legal t w)) |}.
Proof.
  intros H. run_m. rewrite H.
  destruct (negb _ && _) eqn:E; simpl.
  - rewrite bool_decide_eq_false_2; [done|].
    rewrite <- refused_iff. by rewrite E.
  - rewrite bool_decide_eq_true_2; [done|]. by apply refused_iff.
Qed.

(** ** [set] *)

Lemma add_path_frame (dest : string) (i : FSMInstance) (source : string) :
  _state (add_path dest i source) = _state i
  ∧ transitions (add_path dest i source) = transitions i
  ∧ listeners (add_path dest i source) = listeners i.
Proof. unfold add_path; simpl. by destruct (paths i !! source). Qed.

Lemma add_paths_frame (dest : string) (l : list string) (i : FSMInstance) :
  _state (foldl (add_path dest) i l) = _state i
  ∧ transitions (foldl (add_path dest) i l) = transitions i
  ∧ listeners (foldl (add_path dest) i l) = listeners i.
Proof.
  revert i. induction l as [|x r IH]; intros i; simpl; [done|].
  destruct (IH (add_path dest i x)) as (-> & -> & ->).
  apply add_path_frame.
Qed.

Lemma add_path_records (dest : string) (i : FSMInstance) (source : string) :
  path_recorded source dest (add_path dest i source).
Proof.
  unfold path_recorded, add_path; simpl.
  destruct (paths i !! source) as [path|]; simpl.
  - split; [set_solver|]. exists ({[dest]} ∪ path).
    rewrite lookup_insert_eq. split; [done|set_solver].
  - split; [set_solver|]. exists {[dest]}.
    rewrite lookup_insert_eq. split; [done|set_solver].
Qed.

Lemma add_path_keeps (dest s : string) (i : FSMInstance) (source : string) :
  path_recorded s dest i → path_recorded s dest (add_path dest i source).
Proof.
  intros [Hs (path & Hp & Hd)]. unfold path_recorded, add_path; simpl.
  destruct (decide (source = s)) as [->|Hne].
  - rewrite Hp; simpl. split; [set_solver|].
    exists ({[dest]} ∪ path). rewrite lookup_insert_eq. split; [done|set_solver].
  - destruct (paths i !! source); simpl;
      (split; [set_solver|]; exists path; by rewrite lookup_insert_ne).
Qed.

Lemma add_paths_keep (dest s : string) (l : list string) (i : FSMInstance) :
  path_recorded s dest i → path_recorded s dest (foldl (add_path dest) i l).
Proof.
  revert i. induction l as [|x r IH]; intros i H; simpl; [done|].
  by apply IH, add_path_keeps.
Qed.

Lemma add_paths_record (dest s : string) (l : list string) (i : FSMInstance) :
  s ∈ l → path_recorded s dest (foldl (add_path dest) i l).
Proof.
  revert i. induction l as [|x r IH]; intros i H; simpl.
  - by apply elem_of_nil in H.
  - apply elem_of_cons in H as [->|H].
    + apply add_paths_keep, add_path_records.
    + by apply IH.
Qed.

Lemma add_paths_dest_known (dest d : string) (l : list string) (i : FSMInstance) :
  d ∈ states i → d ∈ states (foldl (add_path dest) i l).
Proof.
  revert i. induction l as [|x r IH]; intros i H; simpl; [done|].
  apply IH. unfold add_path; simpl.
  destruct (paths i !! x); simpl; set_solver.
Qed.

(** The instance a successful [set] leaves. *)
Lemma set_fresh (name : string) (sources : SourcesArg) (dest : string)
    (w : World) :
  transitions (this w) !! name = None →
  let i' :=
    foldl (add_path dest)
      (with_states ({[dest]} ∪ states (this w))
         (with_transitions
            (<[name := FSMTransition.new name (source_list sources) dest]>
               (transitions (this w)))
            (this w)))
      (source_list sources) in
  set name sources dest w
  = {| after := {| this := i'; heap := heap w |}; calls := [];
       completion := Normal i' |}.
Proof.
  intros H. run_m. rewrite H.
  rewrite bool_decide_eq_false_2 by (by intros [? ?]).
  done.
Qed.

Lemma set_taken (name : string) (sources : SourcesArg) (dest : string)
    (w : World) :
  is_Some (transitions (this w) !! name) →
  set name sources dest w
  = {| after := w; calls := [];
       completion :=
         Throw (RangeError ("FSMInstance.set(): transition '" +:+ name
                            +:+ "' already exists")) |}.
Proof. intros H. run_m. by rewrite bool_decide_eq_true_2. Qed.

Lemma set_returns_iff (name : string) (sources : SourcesArg) (dest : string)
    (w : World) :
  (∃ v, completion (set name sources dest w) = Normal v)
  ↔ transitions (this w) !! name = None.
Proof.
  split.
  - intros [v Hv]. destruct (transitions (this w) !! name) eqn:E; [|done].
    rewrite set_taken in Hv by (by rewrite E). done.
  - intros H. rewrite set_fresh by done. by eexists.
Qed.

Lemma set_registers (name : string) (sources : SourcesArg) (dest : string)
    (w : World) :
  transitions (this w) !! name = None →
  transitions (this (after (set name sources dest w))) !! name
  = Some (FSMTransition.new name (source_list sources) dest).
Proof.
  intros H. rewrite set_fresh by done. simpl.
  destruct (add_paths_frame dest (source_list sources)
    (with_states ({[dest]} ∪ states (this w))
       (with_transitions
          (<[name := FSMTransition.new name (source_list sources) dest]>
             (transitions (this w))) (this w)))) as (_ & -> & _).
  simpl. apply lookup_insert_eq.
Qed.

(** ** [move] *)

Section DispatchFacts.

Variable code : ListenerCode.

Lemma move_unregistered (name : string) (w : World) :
  transitions (this w) !! name = None →
  move code name w
  = {| after := w; calls := [];
       completion :=
         Throw (RangeError ("FSMInstance.move(): not found transition '"
                            +:+ name +:+ "'")) |}.
Proof. intros H. unfold move. run_m. by rewrite H. Qed.

Lemma move_illegal (name : string) (t : FSMTransition) (w : World) :
  transitions (this w) !! name = Some t →
  ¬ legal t w →
  move code name w
  = {| after := w; calls := [];
       completion :=
         Throw (RangeError
                  ("FSMInstance.move(): current state expected is '"
                   +:+ join_comma (FSMTransition.sources t)
                   +:+ "', actual is '" +:+ _state (this w) +:+ "'")) |}.
Proof.
  intros H Hl. unfold move. run_m. rewrite H.
  destruct (negb _ && _) eqn:E; [done|].
  by apply refused_iff in E.
Qed.

(** A legal [move] switches the state and then runs [forEach] on the
    array of the destination, if there is one. *)
Lemma move_legal (name : string) (t : FSMTransition) (w : World) :
  transitions (this w) !! name = Some t →
  legal t w →
  move code name w
  = match listeners (this w) !! FSMTransition.dest t with
    | Some a =>
        let o := forEach code a (_state (this w)) (FSMTransition.dest t)
                   (switched (FSMTransition.dest t) w) in
        {| after := after o; calls := calls o;
           completion := match completion o with
                         | Normal _ => Normal (this (after o))
                         | Throw e => Throw e
                         end |}
    | None =>
        {| after := switched (FSMTransition.dest t) w; calls := [];
           completion := Normal (this (switched (FSMTransition.dest t) w)) |}
    end.
Proof.
  intros H Hl. apply refused_iff in Hl. unfold move, forEach. run_m.
  rewrite H, Hl. simpl.
  destruct (listeners (this w) !! FSMTransition.dest t) as [a|]; [|done].
  simpl. fold (switched (FSMTransition.dest t) w).
  match goal with |- context [completion ?o] => destruct (completion o) end;
    simpl; [|done].
  by rewrite app_nil_r.
Qed.

(** The calls [forEach] makes when every callback in the array is quiet. *)
Lemma forEach_from_quiet (a : ArrayRef) (from to : string)
    (ls : list FSMTransitionCallback) (v : World) :
  default [] (heap v !! a) = ls →
  (∀ l, l ∈ ls → quiet code l) →
  ∀ n k, k + n = length ls →
  forEach_from code a from to k n v
  = {| after := v;
       calls := map (λ l, {| callee := l; arg_instance := this v;
                             arg_from := from; arg_to := to |}) (drop k ls);
       completion := Normal () |}.
Proof.
  intros Hls Hq. induction n as [|n IH]; intros k Hk; simpl.
  - rewrite drop_ge by lia. done.
  - destruct (lookup_lt_is_Some_2 ls k) as [x Hx]; [lia|].
    assert (Hc : code x from to v = (v, None)).
    { apply Hq. by eapply list_elem_of_lookup_2. }
    run_m. rewrite Hls, Hx. unfold call. simpl. rewrite Hc. simpl.
    rewrite IH by lia. simpl.
    by rewrite (drop_S _ _ _ Hx).
Qed.

Lemma forEach_quiet (a : ArrayRef) (from to : string) (v : World) :
  (∀ l, l ∈ default [] (heap v !! a) → quiet code l) →
  forEach code a from to v
  = {| after := v;
       calls := map (λ l, {| callee := l; arg_instance := this v;
                             arg_from := from; arg_to := to |})
                    (default [] (heap v !! a));
       completion := Normal () |}.
Proof.
  intros Hq. unfold forEach. run_m.
  by rewrite (forEach_from_quiet a from to _ v eq_refl Hq _ 0).
Qed.

End DispatchFacts.

(** ** [on] and [off] *)

Lemma world_eta (w : World) : {| this := this w; heap := heap w |} = w.
Proof. by destruct w. Qed.

Lemma with_listeners_same (i : FSMInstance) : with_listeners (listeners i) i = i.
Proof. by destruct i. Qed.

(** [on] when [state] already has an array: the push lands in that array. *)
Lemma on_existing (state : string) (listener : FSMTransitionCallback)
    (w : World) (a : ArrayRef) :
  listeners (this w) !! state = Some a →
  on state listener w
  = {| after := {| this := this w;
                   heap := <[a := default [] (heap w !! a) ++ [listener]]>
                             (heap w) |};
       calls := [];
       completion := Normal (this w) |}.
Proof.
  intros H. run_m. rewrite H. simpl.
  rewrite (insert_id _ _ _ H), with_listeners_same. done.
Qed.

(** [on] when [state] has none: a new array holding [listener] is stored. *)
Lemma on_absent (state : string) (listener : FSMTransitionCallback)
    (w : World) :
  listeners (this w) !! state = None →
  let a := fresh (dom (heap w)) in
  let i' := with_listeners (<[state := a]> (listeners (this w))) (this w) in
  on state listener w
  = {| after := {| this := i'; heap := <[a := [listener]]> (heap w) |};
       calls := [];
       completion := Normal i' |}.
Proof.
  intros H. run_m. rewrite H. simpl.
  rewrite lookup_insert_eq. simpl. by rewrite insert_insert_eq.
Qed.

Lemma on_callbacks (state : string) (listener : FSMTransitionCallback)
    (w : World) :
  callbacks state (after (on state listener w))
  = callbacks state w ++ [listener].
Proof.
  unfold callbacks at 2.
  destruct (listeners (this w) !! state) as [a|] eqn:E.
  - rewrite (on_existing _ _ _ _ E). unfold callbacks. simpl.
    by rewrite E, lookup_insert_eq.
  - rewrite (on_absent _ _ _ E). unfold callbacks. simpl.
    by rewrite !lookup_insert_eq.
Qed.

Lemma on_returns (state : string) (listener : FSMTransitionCallback)
    (w : World) :
  calls (on state listener w) = []
  ∧ completion (on state listener w)
    = Normal (this (after (on state listener w))).
Proof.
  destruct (listeners (this w) !! state) as [a|] eqn:E.
  - by rewrite (on_existing _ _ _ _ E).
  - by rewrite (on_absent _ _ _ E).
Qed.

Lemma first_index_absent (x : FSMTransitionCallback)
    (l : list FSMTransitionCallback) (i : nat) :
  x ∉ l → first_index x l i = None.
Proof.
  revert i. induction l as [|y r IH]; intros i H; simpl; [done|].
  apply not_elem_of_cons in H as [Hne Hr].
  destruct (decide (y = x)); [congruence|]. by apply IH.
Qed.

Lemma first_index_found (x : FSMTransitionCallback)
    (l1 l2 : list FSMTransitionCallback) (i : nat) :
  x ∉ l1 → first_index x (l1 ++ x :: l2) i = Some (i + length l1).
Proof.
  revert i. induction l1 as [|y r IH]; intros i H; simpl.
  - rewrite decide_True by done. f_equal. lia.
  - apply not_elem_of_cons in H as [Hne Hr].
    destruct (decide (y = x)); [congruence|].
    rewrite IH by done. f_equal. lia.
Qed.

Lemma off_all (state : string) (w : World) :
  let i' := with_listeners (delete state (listeners (this w))) (this w) in
  off state None w
  = {| after := {| this := i'; heap := heap w |}; calls := [];
       completion := Normal i' |}.
Proof. by run_m. Qed.

Lemma off_missing (state : string) (listener : FSMTransitionCallback)
    (w : World) :
  listener ∉ callbacks state w →
  off state (Some listener) w
  = {| after := w; calls := []; completion := Normal (this w) |}.
Proof.
  unfold callbacks. intros H. run_m.
  destruct (listeners (this w) !! state) as [a|]; simpl; [|done].
  by rewrite (first_index_absent _ _ _ H).
Qed.

Lemma off_first (state : string) (listener : FSMTransitionCallback)
    (w : World) (a : ArrayRef) (l1 l2 : list FSMTransitionCallback) :
  listeners (this w) !! state = Some a →
  default [] (heap w !! a) = l1 ++ listener :: l2 →
  listener ∉ l1 →
  off state (Some listener) w
  = {| after := {| this := this w; heap := <[a := l1 ++ l2]> (heap w) |};
       calls := [];
       completion := Normal (this w) |}.
Proof.
  intros Ha Hl H1. run_m. rewrite Ha. simpl. rewrite Hl.
  rewrite (first_index_found _ _ _ _ H1). simpl.
  by rewrite delete_middle.
Qed.

(** ** Listeners that call back into the instance *)

Section Reentrancy.

Variable code : ListenerCode.

(** [forEach] itself throws nothing: it completes normally or passes on
    what a listener threw. *)
Lemma forEach_from_passes (a : ArrayRef) (from to : string) (n k : nat)
    (v : World) :
  ¬ rejected (forEach_from code a from to k n v).
Proof.
  revert k v. induction n as [|n IH]; intros k v [msg H]; simpl in H.
  - run_m. done.
  - run_m. destruct (default [] (heap v !! a) !! k) as [x|]; simpl in H.
    + unfold call in H. simpl in H.
      destruct (code x from to v).2; simpl in H; [done|].
      apply (IH (S k) (code x from to v).1). by exists msg.
    + apply (IH (S k) v). by exists msg.
Qed.

Lemma legal_move_passes (name : string) (t : FSMTransition) (w : World) :
  transitions (this w) !! name = Some t →
  legal t w →
  ¬ rejected (move code name w).
Proof.
  intros H Hl [msg Hr]. rewrite (move_legal code _ _ _ H Hl) in Hr.
  destruct (listeners (this w) !! FSMTransition.dest t) as [a|]; [|done].
  unfold forEach in Hr. simpl in Hr.
  match type of Hr with context [completion ?o] =>
    destruct (completion o) as [|e] eqn:E end; simpl in Hr; [done|].
  injection Hr as ->. eapply forEach_from_passes. exists msg. exact E.
Qed.





(** A legal move with quiet listeners on the destination. *)
Lemma move_legal_quiet (name : string) (t : FSMTransition) (w : World) :
  transitions (this w) !! name = Some t →
  legal t w →
  (∀ l, l ∈ callbacks (FSMTransition.dest t) w → quiet code l) →
  move code name w
  = {| after := switched (FSMTransition.dest t) w;
       calls := map (λ l, {| callee := l;
                             arg_instance :=
                               this (switched (FSMTransition.dest t) w);
                             arg_from := _state (this w);
                             arg_to := FSMTransition.dest t |})
                    (callbacks (FSMTransition.dest t) w);
       completion := Normal (this (switched (FSMTransition.dest t) w)) |}.
Proof.
  intros H Hl Hq. rewrite (move_legal code _ _ _ H Hl).
  unfold callbacks in *.
  destruct (listeners (this w) !! FSMTransition.dest t) as [a|]; [|done].
  rewrite forEach_quiet by done. done.
Qed.

Lemma quiet_undisturbing (a : ArrayRef) (ls : list FSMTransitionCallback)
    (l : FSMTransitionCallback) :
  quiet code l → undisturbing code a ls l.
Proof. intros Hq from to w Hp. by rewrite (Hq from to w). Qed.

(** The loop of [forEach] while the entries it started with stay in
    place: it calls them one after the other and completes normally. *)
Lemma forEach_from_undisturbed (a : ArrayRef) (from to : string)
    (ls : list FSMTransitionCallback) :
  (∀ l, l ∈ ls → undisturbing code a ls l) →
  ∀ n k v, ls `prefix_of` default [] (heap v !! a) → k + n = length ls →
  let o := forEach_from code a from to k n v in
  map callee (calls o) = drop k ls
  ∧ Forall (λ c, arg_from c = from ∧ arg_to c = to) (calls o)
  ∧ (∀ c, head (calls o) = Some c → arg_instance c = this v)
  ∧ (n = 0 → after o = v)
  ∧ completion o = Normal ().
Proof.
  intros Hs. induction n as [|n IH]; intros k v Hv Hk; simpl.
  - rewrite drop_ge by lia. done.
  - destruct (lookup_lt_is_Some_2 ls k) as [x Hx]; [lia|].
    assert (Hx' : default [] (heap v !! a) !! k = Some x).
    { destruct Hv as [extra ->]. by apply lookup_app_l_Some. }
    destruct (Hs x (list_elem_of_lookup_2 _ _ _ Hx) from to v Hv) as [Hn Ha].
    destruct (IH (S k) (code x from to v).1 Ha) as (Hc & Hf & _ & _ & Hr);
      [lia|].
    run_m. rewrite Hx'. unfold call. simpl. rewrite Hn. simpl.
    rewrite Hc, Hr, (drop_S _ _ _ Hx).
    split; [done|]. split; [by constructor|].
    split; [by intros c [= <-]|]. done.
Qed.

(** A legal move while the callbacks of the destination stay in place. *)
Lemma move_legal_undisturbed (name : string) (t : FSMTransition) (w : World) :
  transitions (this w) !! name = Some t →
  legal t w →
  (∀ a, listeners (this w) !! FSMTransition.dest t = Some a →
        ∀ l, l ∈ callbacks (FSMTransition.dest t) w →
             undisturbing code a (callbacks (FSMTransition.dest t) w) l) →
  let o := move code name w in
  map callee (calls o) = callbacks (FSMTransition.dest t) w
  ∧ Forall (λ c, arg_from c = _state (this w)
                 ∧ arg_to c = FSMTransition.dest t) (calls o)
  ∧ (∀ c, head (calls o) = Some c →
          arg_instance c = this (switched (FSMTransition.dest t) w))
  ∧ (callbacks (FSMTransition.dest t) w = [] →
     after o = switched (FSMTransition.dest t) w)
  ∧ completion o = Normal (this (after o)).
Proof.
  intros H Hl Hs. rewrite (move_legal code _ _ _ H Hl).
  unfold callbacks in *.
  destruct (listeners (this w) !! FSMTransition.dest t) as [a|]; [|done].
  specialize (Hs a eq_refl). unfold forEach. run_m.
  destruct (forEach_from_undisturbed a (_state (this w))
              (FSMTransition.dest t) _ Hs
              (length (default [] (heap w !! a))) 0
              (switched (FSMTransition.dest t) w))
    as (Hc & Hf & Hh & Ha & Hr); [done|done|].
  simpl in *. rewrite Hr. simpl.
  split; [done|]. split; [done|]. split; [done|]. split; [|done].
  intros E. apply Ha. by rewrite E.
Qed.

(** A listener that throws ends the move: the callbacks after it are not
    called, the value it threw is passed on, and the state stays
    switched. *)
Lemma move_aborts (name : string) (t : FSMTransition) (w : World)
    (l : FSMTransitionCallback) (rest : list FSMTransitionCallback)
    (w1 : World) (x : nat) :
  transitions (this w) !! name = Some t →
  legal t w →
  callbacks (FSMTransition.dest t) w = l :: rest →
  code l (_state (this w)) (FSMTransition.dest t)
       (switched (FSMTransition.dest t) w) = (w1, Some x) →
  move code name w
  = {| after := w1;
       calls := [{| callee := l;
                    arg_instance := this (switched (FSMTransition.dest t) w);
                    arg_from := _state (this w);
                    arg_to := FSMTransition.dest t |}];
       completion := Throw (Escaped x) |}.
Proof.
  intros H Hl Hc Hx. rewrite (move_legal code _ _ _ H Hl).
  unfold callbacks in Hc.
  destruct (listeners (this w) !! FSMTransition.dest t) as [a|]; [|done].
  unfold forEach. run_m. rewrite Hc. simpl. run_m. rewrite Hc. simpl.
  unfold call. simpl. rewrite Hx. done.
Qed.

End Reentrancy.

Lemma passive_quiet (l : FSMTransitionCallback) : quiet passive_code l.
Proof. by intros from to w. Qed.

(** ** Arrays are not shared between states *)

Lemma constructor_separated (init : string) : separated (constructor init).
Proof. split; simpl; intros *; by rewrite lookup_empty. Qed.

Lemma on_separated (state : string) (listener : FSMTransitionCallback)
    (w : World) :
  separated w → separated (after (on state listener w)).
Proof.
  intros [Hal Hinj].
  destruct (listeners (this w) !! state) as [a|] eqn:E.
  - rewrite (on_existing _ _ _ _ E). split; simpl; [|done].
    intros s a' Hs. destruct (decide (a = a')) as [->|Hne].
    + rewrite lookup_insert_eq. by eexists.
    + rewrite lookup_insert_ne by done. by eapply Hal.
  - rewrite (on_absent _ _ _ E).
    assert (Hfresh : ∀ s a', listeners (this w) !! s = Some a' →
                       a' ≠ fresh (dom (heap w))).
    { intros s a' Hs ->. apply Hal, elem_of_dom in Hs.
      by apply is_fresh in Hs. }
    split; simpl.
    + intros s a' Hs. destruct (decide (state = s)) as [Es|Hne].
      * subst s. rewrite lookup_insert_eq in Hs. injection Hs as <-.
        rewrite lookup_insert_eq. by eexists.
      * rewrite lookup_insert_ne in Hs by done.
        rewrite lookup_insert_ne by (by intros ?; eapply Hfresh).
        by eapply Hal.
    + intros s1 s2 a' H1 H2.
      destruct (decide (state = s1)) as [E1|N1];
        destruct (decide (state = s2)) as [E2|N2]; [congruence| | |].
      * subst s1. rewrite lookup_insert_eq in H1. injection H1 as <-.
        rewrite lookup_insert_ne in H2 by done. by apply Hfresh in H2.
      * subst s2. rewrite lookup_insert_eq in H2. injection H2 as <-.
        rewrite lookup_insert_ne in H1 by done. by apply Hfresh in H1.
      * rewrite lookup_insert_ne in H1, H2 by done. by eapply Hinj.
Qed.

Lemma off_separated (state : string)
    (listener : option FSMTransitionCallback) (w : World) :
  separated w → separated (after (off state listener w)).
Proof.
  intros [Hal Hinj]. destruct listener as [listener|].
  - destruct (decide (listener ∈ callbacks state w)) as [Hin|Hout].
    + destruct (list_elem_of_split_l _ _ Hin) as (l1 & l2 & Hc & H1).
      unfold callbacks in Hc.
      destruct (listeners (this w) !! state) as [a|] eqn:E; [|by destruct l1].
      rewrite (off_first _ _ _ _ _ _ E Hc H1). split; simpl; [|done].
      intros s a' Hs. destruct (decide (a = a')) as [->|Hne].
      * rewrite lookup_insert_eq. by eexists.
      * rewrite lookup_insert_ne by done. by eapply Hal.
    + by rewrite (off_missing _ _ _ Hout).
  - rewrite off_all. split; simpl.
    + intros s a Hs. apply lookup_delete_Some in Hs as [_ Hs]. by eapply Hal.
    + intros s1 s2 a H1 H2. apply lookup_delete_Some in H1 as [_ H1].
      apply lookup_delete_Some in H2 as [_ H2]. by eapply Hinj.
Qed.

(** [on] and [off] leave the callbacks of every other state as they were. *)
Lemma on_other (state other : string) (listener : FSMTransitionCallback)
    (w : World) :
  separated w → other ≠ state →
  callbacks other (after (on state listener w)) = callbacks other w.
Proof.
  intros [Hal Hinj] Hne. unfold callbacks.
  destruct (listeners (this w) !! state) as [a|] eqn:E.
  - rewrite (on_existing _ _ _ _ E). simpl.
    destruct (listeners (this w) !! other) as [a'|] eqn:E'; [|done].
    rewrite lookup_insert_ne; [done|]. intros ->. apply Hne. by eapply Hinj.
  - rewrite (on_absent _ _ _ E). simpl.
    rewrite lookup_insert_ne by done.
    destruct (listeners (this w) !! other) as [a'|] eqn:E'; [|done].
    rewrite lookup_insert_ne; [done|]. intros <-.
    apply Hal, elem_of_dom in E'. by apply is_fresh in E'.
Qed.

Lemma off_other (state other : string)
    (listener : option FSMTransitionCallback) (w : World) :
  separated w → other ≠ state →
  callbacks other (after (off state listener w)) = callbacks other w.
Proof.
  intros [Hal Hinj] Hne. destruct listener as [listener|].
  - destruct (decide (listener ∈ callbacks state w)) as [Hin|Hout].
    + destruct (list_elem_of_split_l _ _ Hin) as (l1 & l2 & Hc & H1).
      unfold callbacks in Hc |- *.
      destruct (listeners (this w) !! state) as [a|] eqn:E; [|by destruct l1].
      rewrite (off_first _ _ _ _ _ _ E Hc H1). simpl.
      destruct (listeners (this w) !! other) as [a'|] eqn:E'; [|done].
      rewrite lookup_insert_ne; [done|]. intros ->. apply Hne. by eapply Hinj.
    + by rewrite (off_missing _ _ _ Hout).
  - rewrite off_all. unfold callbacks. simpl.
    by rewrite lookup_delete_ne.
Qed.

Lemma set_keeps_listeners (name : string) (sources : SourcesArg)
    (dest : string) (w : World) :
  listeners (this (after (set name sources dest w))) = listeners (this w)
  ∧ heap (after (set name sources dest w)) = heap w.
Proof.
  destruct (transitions (this w) !! name) as [t|] eqn:E.
  - by rewrite set_taken by (by rewrite E).
  - rewrite set_fresh by done. simpl. split; [|done].
    match goal with |- context [foldl (add_path dest) ?i ?l] =>
      destruct (add_paths_frame dest l i) as (_ & _ & ->) end.
    done.
Qed.

Lemma set_separated (name : string) (sources : SourcesArg) (dest : string)
    (w : World) :
  separated w → separated (after (set name sources dest w)).
Proof.
  unfold separated.
  destruct (set_keeps_listeners name sources dest w) as [-> ->]. done.
Qed.

Lemma switched_separated (dest : string) (w : World) :
  separated w → separated (switched dest w).
Proof. done. Qed.

Section Invariants.

Variable code : ListenerCode.

(** What the code of every listener preserves, [forEach] preserves. *)
Lemma forEach_from_preserves (P : World → Prop) (a : ArrayRef)
    (from to : string) :
  (∀ l from to v, P v → P (code l from to v).1) →
  ∀ n k v, P v → P (after (forEach_from code a from to k n v)).
Proof.
  intros Hc. induction n as [|n IH]; intros k v Hv; simpl; [done|].
  run_m. destruct (default [] (heap v !! a) !! k) as [x|]; simpl.
  - unfold call. simpl.
    destruct (code x from to v).2 eqn:E; simpl.
    + by apply Hc.
    + by apply IH, Hc.
  - by apply IH.
Qed.

Lemma move_separated (name : string) (w : World) :
  (∀ l from to v, separated v → separated (code l from to v).1) →
  separated w → separated (after (move code name w)).
Proof.
  intros Hc Hw. destruct (transitions (this w) !! name) as [t|] eqn:E.
  - destruct (decide (legal t w)) as [Hl|Hl].
    + rewrite (move_legal code _ _ _ E Hl).
      destruct (listeners (this w) !! FSMTransition.dest t) as [a|]; [|done].
      simpl. unfold forEach. run_m.
      by apply (forEach_from_preserves separated).
    + by rewrite (move_illegal code _ _ _ E Hl).
  - by rewrite (move_unregistered code _ _ E).
Qed.

End Invariants.

(** * The properties of the specification *)

(** C1, as the code has it.  Let [name] be registered with transition [t],
    legal from the current state, and let every listener registered for
    [t]'s destination return normally and leave the callbacks registered
    for the destination in place in the destination's array.  Then the
    calls [move(name)] makes are one call per callback of the destination,
    in the order of the list, each with the previous state and the
    destination as [from] and [to]; the first listener finds the instance
    with the current state already set to the destination, and when there
    is no callback [move] only sets the state; [move] returns the
    instance.  With quiet listeners every call receives the instance in
    the destination state, and that is the state [move] leaves. *)
Theorem move_notifies (code : ListenerCode) (name : string)
    (t : FSMTransition) (w : World) :
  transitions (this w) !! name = Some t →
  legal t w →
  (∀ a, listeners (this w) !! FSMTransition.dest t = Some a →
        ∀ l, l ∈ callbacks (FSMTransition.dest t) w →
             undisturbing code a (callbacks (FSMTransition.dest t) w) l) →
  let o := move code name w in
  map callee (calls o) = callbacks (FSMTransition.dest t) w
  ∧ Forall (λ c, arg_from c = _state (this w)
                 ∧ arg_to c = FSMTransition.dest t) (calls o)
  ∧ (∀ c, head (calls o) = Some c →
          arg_instance c = this (switched (FSMTransition.dest t) w))
  ∧ (callbacks (FSMTransition.dest t) w = [] →
     after o = switched (FSMTransition.dest t) w)
  ∧ completion o = Normal (this (after o))
  ∧ ((∀ l, l ∈ callbacks (FSMTransition.dest t) w → quiet code l) →
     after o = switched (FSMTransition.dest t) w
     ∧ Forall (λ c, arg_instance c = this (switched (FSMTransition.dest t) w))
              (calls o)).
Proof.
  intros H Hl Hs o.
  destruct (move_legal_undisturbed code name t w H Hl Hs)
    as (Hc & Hf & Hh & He & Hr).
  repeat (split; [done|]).
  intros Hq. subst o. rewrite (move_legal_quiet code _ _ _ H Hl Hq). simpl.
  split; [done|]. apply Forall_forall. intros c Hc'.
  apply list_elem_of_fmap in Hc' as (l & -> & _). done.
Qed.

(** The hypotheses of [move_notifies] can be met: two passive listeners on
    the destination. *)
Lemma move_notifies_witness :
  let o := move passive_code "go" two_listeners in
  map callee (calls o) = callbacks "C" two_listeners
  ∧ Forall (λ c, arg_from c = _state (this two_listeners) ∧ arg_to c = "C")
           (calls o)
  ∧ (∀ c, head (calls o) = Some c →
          arg_instance c = this (switched "C" two_listeners))
  ∧ (callbacks "C" two_listeners = [] → after o = switched "C" two_listeners)
  ∧ completion o = Normal (this (after o))
  ∧ ((∀ l, l ∈ callbacks "C" two_listeners → quiet passive_code l) →
     after o = switched "C" two_listeners
     ∧ Forall (λ c, arg_instance c = this (switched "C" two_listeners))
              (calls o)).
Proof.
  apply (move_notifies passive_code "go"
           (FSMTransition.make "go" ["A"] "C" false) two_listeners).
  - reflexivity.
  - right. vm_compute. left.
  - intros a _ l _. apply quiet_undisturbing, passive_quiet.
Defined.

(** C1 fails as stated.  ["go"] is registered and legal from ["A"], and
    listeners [0] and [1] are registered for its destination ["C"], in
    this order; listener [0] takes itself off ["C"] when called.  [move]
    calls listener [0] and then finds index 1 of the array empty: listener
    [1] is never called. *)
Lemma move_skips_listener :
  transitions (this two_listeners) !! "go"
  = Some (FSMTransition.make "go" ["A"] "C" false)
  ∧ _state (this two_listeners) = "A"
  ∧ callbacks "C" two_listeners = [0; 1]
  ∧ map callee (calls (move (unregistering_code "C") "go" two_listeners))
    = [0]
  ∧ 1 ∈ callbacks "C" two_listeners
  ∧ 1 ∉ map callee
          (calls (move (unregistering_code "C") "go" two_listeners)).
Proof.
  assert (E : map callee
                (calls (move (unregistering_code "C") "go" two_listeners))
              = [0]) by (vm_compute; reflexivity).
  rewrite E.
  assert (C : callbacks "C" two_listeners = [0; 1]) by (vm_compute; reflexivity).
  rewrite C.
  clear E C.
  split; [vm_compute; reflexivity|]. split; [vm_compute; reflexivity|].
  split; [reflexivity|]. split; [reflexivity|]. split.
  - apply list_elem_of_further, list_elem_of_here.
  - intros H. apply list_elem_of_singleton in H. discriminate.
Qed.



(** C3.  [can(name)] leaves the instance as it was, calls no listener and
    never throws.  It returns [false] when no transition called [name] is
    registered, [true] when the registered transition is a wildcard
    transition, and otherwise [true] exactly when the current state occurs
    in the transition's source list. *)
Theorem can_decides (name : string) (w : World) :
  after (can name w) = w
  ∧ calls (can name w) = []
  ∧ ∃ b, completion (can name w) = Normal b
      ∧ (transitions (this w) !! name = None → b = false)
      ∧ (∀ t, transitions (this w) !! name = Some t →
              FSMTransition.willcard t = true → b = true)
      ∧ (∀ t, transitions (this w) !! name = Some t →
              FSMTransition.willcard t = false →
              (b = true ↔ _state (this w) ∈ FSMTransition.sources t)).
Proof.
  destruct (transitions (this w) !! name) as [t|] eqn:E.
  - rewrite (can_registered _ _ _ E). simpl.
    split; [done|]. split; [done|].
    exists (bool_decide (legal t w)). split; [done|].
    split; [done|]. split.
    + intros t' [= <-] Hw. apply bool_decide_eq_true_2. by left.
    + intros t' [= <-] Hw. rewrite bool_decide_eq_true. unfold legal.
      rewrite Hw. split; [by intros [?|?]|by right].
  - rewrite (can_unregistered _ _ E). simpl.
    split; [done|]. split; [done|]. exists false. done.
Qed.




(** C5.  Once [set(name, s1, d1)] has succeeded, the transition it stored
    is the one built from [s1] and [d1]; and in every world where [name]
    still maps to that transition, [set(name, s2, d2)] throws a
    [RangeError], calls no listener and leaves the whole world, the stored
    transition included, exactly as it was. *)
Theorem set_twice (name : string) (s1 s2 : SourcesArg) (d1 d2 : string)
    (w : World) :
  (∃ v, completion (set name s1 d1 w) = Normal v) →
  let w1 := after (set name s1 d1 w) in
  transitions (this w1) !! name
  = Some (FSMTransition.new name (source_list s1) d1)
  ∧ ∀ w2, transitions (this w2) !! name = transitions (this w1) !! name →
      rejected (set name s2 d2 w2)
      ∧ calls (set name s2 d2 w2) = []
      ∧ after (set name s2 d2 w2) = w2.
Proof.
  intros Hok w1. apply set_returns_iff in Hok.
  pose proof (set_registers name s1 d1 w Hok) as Hreg. fold w1 in Hreg.
  split; [done|]. intros w2 H2. rewrite Hreg in H2.
  rewrite set_taken by (by rewrite H2). simpl.
  split; [by eexists|done].
Qed.

(** The hypothesis of [set_twice] can be met: a first [set] on a new
    instance. *)
Lemma set_twice_witness :
  let w1 := after (set "go" (OneSource "A") "C" (constructor "A")) in
  transitions (this w1) !! "go" = Some (FSMTransition.new "go" ["A"] "C")
  ∧ ∀ w2, transitions (this w2) !! "go" = transitions (this w1) !! "go" →
      rejected (set "go" (SourceArray ["B"; "*"]) "D" w2)
      ∧ calls (set "go" (SourceArray ["B"; "*"]) "D" w2) = []
      ∧ after (set "go" (SourceArray ["B"; "*"]) "D" w2) = w2.
Proof.
  apply (set_twice "go" (OneSource "A") (SourceArray ["B"; "*"]) "C" "D"
           (constructor "A")).
  eexists. vm_compute. reflexivity.
Defined.

(** C6.  Right after [new FSMInstance(init)] the getter [state] returns
    [init] and the transition map is empty, so that for every name [can]
    returns [false] and [move] throws its [RangeError], whatever the
    listeners would do. *)
Theorem constructor_initial (init : string) :
  state (constructor init)
  = {| after := constructor init; calls := []; completion := Normal init |}
  ∧ transitions (this (constructor init)) = ∅
  ∧ ∀ name,
      completion (can name (constructor init)) = Normal false
      ∧ ∀ code : ListenerCode, rejected (move code name (constructor init))
                ∧ after (move code name (constructor init)) = constructor init.
Proof.
  split; [done|]. split; [done|]. intros name.
  assert (H : transitions (this (constructor init)) !! name = None)
    by apply lookup_empty.
  split.
  - by rewrite (can_unregistered _ _ H).
  - intros code. rewrite (move_unregistered code _ _ H). simpl.
    split; [|done]. by eexists.
Qed.

(** C7.  [off(state)] without a listener leaves no callback for [state];
    [off(state, listener)] removes the first entry of [state]'s callback
    list that is [listener] and keeps the other entries in their order;
    when [listener] is not in the list, or [state] has no list, nothing
    changes.  Neither form throws or calls a listener; both return the
    instance. *)
Theorem off_removes (state : string) (w : World) :
  (callbacks state (after (off state None w)) = []
   ∧ heap (after (off state None w)) = heap w
   ∧ (listeners (this w) !! state = None → after (off state None w) = w)
   ∧ calls (off state None w) = []
   ∧ completion (off state None w) = Normal (this (after (off state None w))))
  ∧ ∀ listener,
      let o := off state (Some listener) w in
      (listener ∉ callbacks state w → after o = w)
      ∧ (∀ l1 l2, callbacks state w = l1 ++ listener :: l2 → listener ∉ l1 →
           callbacks state (after o) = l1 ++ l2)
      ∧ this (after o) = this w
      ∧ calls o = []
      ∧ completion o = Normal (this (after o)).
Proof.
  split.
  - rewrite off_all. simpl. split; [|split; [done|split; [|done]]].
    + unfold callbacks. simpl. by rewrite lookup_delete_eq.
    + intros H. rewrite (delete_id _ _ H), with_listeners_same.
      apply world_eta.
  - intros listener o. subst o.
    assert (Hfirst : ∀ l1 l2, callbacks state w = l1 ++ listener :: l2 →
              listener ∉ l1 →
              ∃ a, off state (Some listener) w
                   = {| after := {| this := this w;
                                    heap := <[a := l1 ++ l2]> (heap w) |};
                        calls := []; completion := Normal (this w) |}
                   ∧ listeners (this w) !! state = Some a).
    { intros l1 l2 Hc H1. unfold callbacks in Hc.
      destruct (listeners (this w) !! state) as [a|] eqn:Ea.
      - exists a. split; [|done]. by apply off_first.
      - by destruct l1. }
    destruct (decide (listener ∈ callbacks state w)) as [Hin|Hout].
    + destruct (list_elem_of_split_l _ _ Hin) as (l1 & l2 & Hc & H1).
      destruct (Hfirst l1 l2 Hc H1) as (a & E & Ha). rewrite E. simpl.
      split; [done|]. split; [|done].
      intros k1 k2 Hc' Hk. destruct (Hfirst k1 k2 Hc' Hk) as (a' & E' & Ha').
      assert (a' = a) as -> by congruence.
      unfold callbacks. simpl. rewrite Ha, lookup_insert_eq. simpl.
      rewrite E in E'. injection E' as E'. apply (f_equal (lookup a)) in E'.
      rewrite !lookup_insert_eq in E'. congruence.
    + rewrite (off_missing _ _ _ Hout). simpl.
      split; [done|]. split; [|done].
      intros l1 l2 Hc _. exfalso. apply Hout. rewrite Hc.
      apply elem_of_app. right. left.
Qed.

(** C8, as the code has it.  [on(state, listener)] appends [listener] to
    [state]'s callback list, creating the list when there is none, calls
    no listener and returns the instance; doing it twice appends two
    entries.  A legal [move] that lands on [state] while the list is as
    the two calls left it then calls [listener] once for each of the two
    entries, after the callbacks that were there before, provided the
    listeners of [state] return normally and leave the callbacks
    registered for [state] in place in its array. *)
Theorem on_appends (state : string) (listener : FSMTransitionCallback)
    (w : World) :
  let w1 := after (on state listener w) in
  let w2 := after (on state listener w1) in
  callbacks state w1 = callbacks state w ++ [listener]
  ∧ is_Some (listeners (this w1) !! state)
  ∧ calls (on state listener w) = []
  ∧ completion (on state listener w) = Normal (this w1)
  ∧ callbacks state w2 = callbacks state w ++ [listener; listener]
  ∧ ∀ code name t v,
      callbacks state v = callbacks state w2 →
      transitions (this v) !! name = Some t →
      FSMTransition.dest t = state →
      legal t v →
      (∀ a, listeners (this v) !! state = Some a →
            ∀ l, l ∈ callbacks state v →
                 undisturbing code a (callbacks state v) l) →
      map callee (calls (move code name v))
      = callbacks state w ++ [listener; listener].
Proof.
  intros w1 w2.
  assert (H2 : callbacks state w2 = callbacks state w ++ [listener; listener]).
  { subst w2 w1. rewrite !on_callbacks. by rewrite <- app_assoc. }
  split; [apply on_callbacks|]. split.
  { subst w1. destruct (listeners (this w) !! state) as [a|] eqn:E.
    - rewrite (on_existing _ _ _ _ E). simpl. by rewrite E.
    - rewrite (on_absent _ _ _ E). simpl. by rewrite lookup_insert_eq. }
  split; [apply on_returns|]. split; [apply on_returns|]. split; [done|].
  intros code name t v Hv Ht Hd Hl Hs. subst state.
  destruct (move_legal_undisturbed code name t v Ht Hl Hs) as (Hc & _).
  by rewrite Hc, Hv.
Qed.

(** The conditions on the move in [on_appends] can be met: the same
    passive listener registered twice is called twice. *)
Lemma on_appends_witness :
  map callee (calls (move passive_code "go" same_listener_twice)) = [0; 0].
Proof.
  apply (on_appends "C" 0
           (after (set "go" (OneSource "A") "C" (constructor "A")))
         : _ ∧ _ ∧ _ ∧ _ ∧ _ ∧ _)
    with (t := FSMTransition.make "go" ["A"] "C" false).
  - reflexivity.
  - reflexivity.
  - reflexivity.
  - right. vm_compute. left.
  - intros a _ l _. apply quiet_undisturbing, passive_quiet.
Defined.

(** C8 fails as stated.  Listener [0], which takes itself off ["C"] when
    called, is registered twice for ["C"]; the move landing on ["C"] calls
    it once: its first call removes the first entry, and index 1 of the
    array is then empty. *)
Lemma twice_registered_called_once :
  transitions (this same_listener_twice) !! "go"
  = Some (FSMTransition.make "go" ["A"] "C" false)
  ∧ _state (this same_listener_twice) = "A"
  ∧ callbacks "C" same_listener_twice = [0; 0]
  ∧ map callee
      (calls (move (unregistering_code "C") "go" same_listener_twice))
    = [0]
  ∧ length (calls (move (unregistering_code "C") "go" same_listener_twice))
    = 1.
Proof. repeat split; vm_compute; reflexivity. Qed.

(** C9.  A [set] that succeeds changes neither the current state nor the
    listener registry (the [listeners] map and the callback arrays), calls
    no listener, and returns the instance. *)
Theorem set_frame (name : string) (sources : SourcesArg) (dest : string)
    (w : World) (v : FSMInstance) :
  completion (set name sources dest w) = Normal v →
  let w' := after (set name sources dest w) in
  _state (this w') = _state (this w)
  ∧ listeners (this w') = listeners (this w)
  ∧ heap w' = heap w
  ∧ (∀ s, callbacks s w' = callbacks s w)
  ∧ calls (set name sources dest w) = []
  ∧ v = this w'.
Proof.
  intros Hv w'. assert (Hnone : transitions (this w) !! name = None).
  { apply (set_returns_iff name sources dest). by eexists. }
  pose proof (set_fresh name sources dest w Hnone) as E. simpl in E.
  subst w'. rewrite E in Hv |- *. simpl.
  match goal with |- context [foldl (add_path dest) ?i ?l] =>
    destruct (add_paths_frame dest l i) as (Hs & _ & Hl) end.
  rewrite Hs. split; [done|]. split; [done|]. split; [done|].
  split; [|split; [done|by inversion Hv]].
  intros s. unfold callbacks. simpl. by rewrite Hl.
Qed.

(** The hypothesis of [set_frame] can be met: a second transition added to
    an instance that has listeners. *)
Lemma set_frame_witness :
  let w := two_listeners in
  let w' := after (set "back" (OneSource "C") "A" w) in
  _state (this w') = _state (this w)
  ∧ listeners (this w') = listeners (this w)
  ∧ heap w' = heap w
  ∧ (∀ s, callbacks s w' = callbacks s w)
  ∧ calls (set "back" (OneSource "C") "A" w) = []
  ∧ this w' = this w'.
Proof.
  apply (set_frame "back" (OneSource "C") "A" two_listeners
           (this (after (set "back" (OneSource "C") "A" two_listeners)))).
  vm_compute. reflexivity.
Defined.


(** C10.  A successful [set] whose source list holds the token stores a
    transition with the source list [["*"]], yet every entry of the list
    as it was given, the token and the discarded explicit sources alike,
    becomes a known state with [dest] recorded as reachable from it. *)
Theorem set_records_given_sources (name : string) (sources : SourcesArg)
    (dest : string) (w : World) :
  (∃ v, completion (set name sources dest w) = Normal v) →
  "*" ∈ source_list sources →
  let w' := after (set name sources dest w) in
  transitions (this w') !! name
  = Some (FSMTransition.make name ["*"] dest true)
  ∧ dest ∈ states (this w')
  ∧ ∀ s, s ∈ source_list sources →
      s ∈ states (this w')
      ∧ ∃ path, paths (this w') !! s = Some path ∧ dest ∈ path.
Proof.
  intros Hok Hstar w'. apply set_returns_iff in Hok.
  split; [|split].
  - rewrite <- (new_wildcard name _ dest Hstar). by apply set_registers.
  - subst w'. rewrite set_fresh by done. simpl.
    apply add_paths_dest_known. simpl. set_solver.
  - intros s Hs. subst w'. rewrite set_fresh by done. simpl.
    by apply add_paths_record.
Qed.

(** The hypotheses of [set_records_given_sources] can be met: the token
    between two explicit sources. *)
Lemma set_records_given_sources_witness :
  let w' := after (set "reset" (SourceArray ["A"; "*"; "B"]) "idle"
                     (constructor "B")) in
  transitions (this w') !! "reset"
  = Some (FSMTransition.make "reset" ["*"] "idle" true)
  ∧ "idle" ∈ states (this w')
  ∧ ∀ s, s ∈ ["A"; "*"; "B"] →
      s ∈ states (this w')
      ∧ ∃ path, paths (this w') !! s = Some path ∧ "idle" ∈ path.
Proof.
  apply (set_records_given_sources "reset" (SourceArray ["A"; "*"; "B"])
           "idle" (constructor "B")).
  - eexists. vm_compute. reflexivity.
  - vm_compute. right. left.
Defined.

(** * Further properties *)

(** X1.  A listener that throws ends [move]: if the first callback of the
    destination throws, it is the only listener called, the value it threw
    is what [move] throws, and the world is the one that listener left,
    the switch of the current state included. *)
Theorem move_stops_at_throw (code : ListenerCode) (name : string)
    (t : FSMTransition) (w : World) (l : FSMTransitionCallback)
    (rest : list FSMTransitionCallback) (w1 : World) (x : nat) :
  transitions (this w) !! name = Some t →
  legal t w →
  callbacks (FSMTransition.dest t) w = l :: rest →
  code l (_state (this w)) (FSMTransition.dest t)
       (switched (FSMTransition.dest t) w) = (w1, Some x) →
  after (move code name w) = w1
  ∧ map callee (calls (move code name w)) = [l]
  ∧ completion (move code name w) = Throw (Escaped x).
Proof.
  intros H Hl Hc Hx. by rewrite (move_aborts code _ _ _ _ _ _ _ H Hl Hc Hx).
Qed.

(** Listener [0] throws the value [7]; on [two_listeners] listener [1] is
    not called and the state stays ["C"]. *)
Lemma move_stops_at_throw_witness :
  after (move throwing_code "go" two_listeners) = switched "C" two_listeners
  ∧ map callee (calls (move throwing_code "go" two_listeners)) = [0]
  ∧ completion (move throwing_code "go" two_listeners) = Throw (Escaped 7).
Proof.
  apply (move_stops_at_throw throwing_code "go"
           (FSMTransition.make "go" ["A"] "C" false) two_listeners 0 [1]).
  - reflexivity.
  - right. vm_compute. left.
  - reflexivity.
  - reflexivity.
Defined.

(** X2.  On an instance whose states do not share arrays, [on] and [off]
    for one state leave the callbacks of every other state as they
    were. *)
Theorem on_off_elsewhere (state other : string) (w : World) :
  separated w → other ≠ state →
  (∀ listener,
     callbacks other (after (on state listener w)) = callbacks other w)
  ∧ (∀ listener,
       callbacks other (after (off state listener w)) = callbacks other w).
Proof.
  intros Hw Hne. split; intros listener.
  - by apply on_other.
  - by apply off_other.
Qed.

Lemma on_off_elsewhere_witness :
  (∀ listener,
     callbacks "A" (after (on "C" listener two_listeners))
     = callbacks "A" two_listeners)
  ∧ (∀ listener,
       callbacks "A" (after (off "C" listener two_listeners))
       = callbacks "A" two_listeners).
Proof.
  apply (on_off_elsewhere "C" "A" two_listeners).
  - unfold two_listeners.
    apply set_separated, on_separated, on_separated, constructor_separated.
  - discriminate.
Defined.

(** X3.  That no two states share an array, and that every array referred
    to is in the store, holds of a new instance and is kept by [on], [off]
    and [set], and by [move] when the code of the listeners keeps it. *)
Theorem separated_invariant :
  (∀ init, separated (constructor init))
  ∧ ∀ w, separated w →
      (∀ state listener, separated (after (on state listener w)))
      ∧ (∀ state listener, separated (after (off state listener w)))
      ∧ (∀ name sources dest, separated (after (set name sources dest w)))
      ∧ (∀ code name,
           (∀ l from to v, separated v → separated (code l from to v).1) →
           separated (after (move code name w))).
Proof.
  split; [apply constructor_separated|]. intros w Hw.
  split; [intros; by apply on_separated|].
  split; [intros; by apply off_separated|].
  split; [intros; by apply set_separated|].
  intros code name Hc. by apply move_separated.
Qed.

(** The example trace of the specification: from ["idle"], with
    ["start"] from ["idle"] to ["running"], ["stop"] back, and a passive
    listener on ["running"]. *)
Theorem example_trace :
  let w0 := after (on "running" 0
              (after (set "stop" (OneSource "running") "idle"
                (after (set "start" (OneSource "idle") "running"
                  (constructor "idle")))))) in
  let w1 := after (move passive_code "start" w0) in
  let w2 := after (move passive_code "stop" w1) in
  completion (can "start" w0) = Normal true
  ∧ completion (state w1) = Normal "running"
  ∧ map (λ c, (callee c, arg_from c, arg_to c))
        (calls (move passive_code "start" w0)) = [(0, "idle", "running")]
  ∧ completion (can "stop" w1) = Normal true
  ∧ completion (state w2) = Normal "idle"
  ∧ calls (move passive_code "stop" w1) = []
  ∧ completion (move passive_code "start" (constructor "idle"))
    = Throw (RangeError "FSMInstance.move(): not found transition 'start'").
Proof. repeat split; vm_compute; reflexivity. Qed.

(** ** Legality: [set], [can] and [move] together *)

(** X4.  [can] predicts [move]: [can(name)] returns [true] exactly when
    [move(name)] would not be rejected, and [false] exactly when it would,
    whatever the listeners do. *)
Theorem can_predicts_move (code : ListenerCode) (name : string) (w : World) :
  (completion (can name w) = Normal true ↔ ¬ rejected (move code name w))
  ∧ (completion (can name w) = Normal false ↔ rejected (move code name w)).
Proof.
  destruct (transitions (this w) !! name) as [t|] eqn:E.
  - rewrite (can_registered _ _ _ E). simpl.
    destruct (decide (legal t w)) as [Hl|Hl].
    + pose proof (legal_move_passes code _ _ _ E Hl) as Hp.
      rewrite bool_decide_eq_true_2 by done. split; split; done.
    + rewrite bool_decide_eq_false_2 by done.
      rewrite (move_illegal code _ _ _ E Hl).
      assert (Hr : ∀ m, rejected
                {| after := w; calls := [];
                   completion := @Throw FSMInstance (RangeError m) |})
        by (intros m; by eexists).
      split; split; try done. intros Hn. exfalso. apply Hn, Hr.
  - rewrite (can_unregistered _ _ E), (move_unregistered code _ _ E). simpl.
    assert (Hr : ∀ m, rejected
              {| after := w; calls := [];
                 completion := @Throw FSMInstance (RangeError m) |})
      by (intros m; by eexists).
    split; split; try done. intros Hn. exfalso. apply Hn, Hr.
Qed.

(** X5.  A successful [set] whose sources do not hold the token stores
    them as given, not marked wildcard.  In every world where [name] maps
    to that transition, [can(name)] tells whether the current state is one
    of the sources; from a source [move(name)] is accepted and, with quiet
    listeners on [dest], lands on [dest]; from any other state it is
    rejected and changes nothing. *)
Theorem set_explicit (code : ListenerCode) (name : string)
    (sources : SourcesArg) (dest : string) (w : World) :
  (∃ v, completion (set name sources dest w) = Normal v) →
  "*" ∉ source_list sources →
  let w' := after (set name sources dest w) in
  transitions (this w') !! name
  = Some (FSMTransition.make name (source_list sources) dest false)
  ∧ ∀ v, transitions (this v) !! name = transitions (this w') !! name →
      completion (can name v)
      = Normal (bool_decide (_state (this v) ∈ source_list sources))
      ∧ (rejected (move code name v)
         ↔ _state (this v) ∉ source_list sources)
      ∧ (_state (this v) ∈ source_list sources →
         (∀ l, l ∈ callbacks dest v → quiet code l) →
         after (move code name v) = switched dest v
         ∧ completion (move code name v) = Normal (this (switched dest v)))
      ∧ (_state (this v) ∉ source_list sources →
         after (move code name v) = v ∧ calls (move code name v) = []).
Proof.
  intros Hok Hstar w'. apply set_returns_iff in Hok.
  pose proof (set_registers name sources dest w Hok) as Hreg. fold w' in Hreg.
  rewrite (new_explicit _ _ _ Hstar) in Hreg.
  split; [done|]. intros v Hv. rewrite Hreg in Hv.
  set (t := FSMTransition.make name (source_list sources) dest false) in *.
  assert (Hiff : legal t v ↔ _state (this v) ∈ source_list sources).
  { unfold legal. simpl. split; [by intros [?|?]|by right]. }
  split; [|split; [|split]].
  - rewrite (can_registered _ _ _ Hv). simpl. f_equal.
    by apply bool_decide_ext.
  - split.
    + intros Hr Hin. apply Hiff in Hin.
      by apply (legal_move_passes code _ _ _ Hv Hin).
    + intros Hout. rewrite (move_illegal code _ _ _ Hv) by (by rewrite Hiff).
      by eexists.
  - intros Hin Hq. apply Hiff in Hin.
    by rewrite (move_legal_quiet code _ _ _ Hv Hin Hq).
  - intros Hout. by rewrite (move_illegal code _ _ _ Hv) by (by rewrite Hiff).
Qed.

(** The hypotheses of [set_explicit] can be met: two explicit sources. *)
Lemma set_explicit_witness :
  let w' := after (set "go" (SourceArray ["A"; "B"]) "C" (constructor "A")) in
  transitions (this w') !! "go"
  = Some (FSMTransition.make "go" ["A"; "B"] "C" false)
  ∧ ∀ v, transitions (this v) !! "go" = transitions (this w') !! "go" →
      completion (can "go" v)
      = Normal (bool_decide (_state (this v) ∈ ["A"; "B"]))
      ∧ (rejected (move passive_code "go" v) ↔ _state (this v) ∉ ["A"; "B"])
      ∧ (_state (this v) ∈ ["A"; "B"] →
         (∀ l, l ∈ callbacks "C" v → quiet passive_code l) →
         after (move passive_code "go" v) = switched "C" v
         ∧ completion (move passive_code "go" v)
           = Normal (this (switched "C" v)))
      ∧ (_state (this v) ∉ ["A"; "B"] →
         after (move passive_code "go" v) = v
         ∧ calls (move passive_code "go" v) = []).
Proof.
  apply (set_explicit passive_code "go" (SourceArray ["A"; "B"]) "C"
           (constructor "A")).
  - eexists. vm_compute. reflexivity.
  - intros H. apply list_elem_of_In in H. simpl in H.
    destruct H as [H|[H|[]]]; discriminate.
Defined.

(** ** What [set] records *)

Lemma add_path_states (dest : string) (i : FSMInstance) (x : string) :
  states (add_path dest i x) = {[x]} ∪ states i.
Proof. unfold add_path; simpl. by destruct (paths i !! x). Qed.

Lemma add_path_lookup (dest : string) (i : FSMInstance) (x s : string) :
  paths (add_path dest i x) !! s
  = if decide (s = x) then Some ({[dest]} ∪ default ∅ (paths i !! x))
    else paths i !! s.
Proof.
  unfold add_path; simpl.
  destruct (paths i !! x) as [path|] eqn:E; simpl;
    destruct (decide (s = x)) as [->|Hne];
    rewrite ?lookup_insert_eq, ?lookup_insert_ne by done; try done.
  f_equal. set_solver.
Qed.

Lemma add_paths_states (dest : string) (l : list string) (i : FSMInstance) :
  states (foldl (add_path dest) i l) = list_to_set l ∪ states i.
Proof.
  revert i. induction l as [|x r IH]; intros i; simpl; [set_solver|].
  rewrite IH, add_path_states. set_solver.
Qed.

Lemma add_paths_lookup (dest : string) (l : list string) (i : FSMInstance)
    (s : string) :
  paths (foldl (add_path dest) i l) !! s
  = if decide (s ∈ l) then Some ({[dest]} ∪ default ∅ (paths i !! s))
    else paths i !! s.
Proof.
  revert i. induction l as [|x r IH]; intros i; simpl.
  - destruct (decide (s ∈ [])) as [H|_]; [by apply elem_of_nil in H|done].
  - rewrite IH, add_path_lookup.
    destruct (decide (s ∈ x :: r)) as [Hin|Hout].
    + apply elem_of_cons in Hin.
      destruct (decide (s = x)) as [->|Hne]; destruct (decide (x ∈ r));
        simpl; try done.
      * f_equal. rewrite (assoc_L (∪)), (idemp_L (∪)). done.
      * destruct (decide (s ∈ r)); [done|]. by destruct Hin.
      * destruct (decide (s ∈ r)); [done|]. by destruct Hin.
    + apply not_elem_of_cons in Hout as [Hne Hr].
      by rewrite (decide_False _ _ Hne), (decide_False _ _ Hr).
Qed.

(** X6.  What a successful [set] changes, in closed form: [name] is added
    to the transition map, with the transition built from the source list
    as it was given; [dest] and every given source become known states;
    each given source has [dest] added to its set of reachable states,
    that set being created when the source had none, and the entry of
    every other state is as before.  For the known states and the paths
    only which sources are given matters: a call with the same sources in
    another order, or repeated, leaves the same known states and the same
    paths. *)
Theorem set_effect (name : string) (sources : SourcesArg) (dest : string)
    (w : World) :
  (∃ v, completion (set name sources dest w) = Normal v) →
  let w' := after (set name sources dest w) in
  transitions (this w')
  = <[name := FSMTransition.new name (source_list sources) dest]>
      (transitions (this w))
  ∧ states (this w')
    = {[dest]} ∪ list_to_set (source_list sources) ∪ states (this w)
  ∧ (∀ s, paths (this w') !! s
          = if decide (s ∈ source_list sources)
            then Some ({[dest]} ∪ default ∅ (paths (this w) !! s))
            else paths (this w) !! s)
  ∧ ∀ sources2,
      (∀ s, s ∈ source_list sources ↔ s ∈ source_list sources2) →
      states (this (after (set name sources2 dest w))) = states (this w')
      ∧ paths (this (after (set name sources2 dest w))) = paths (this w').
Proof.
  intros Hok w'. apply set_returns_iff in Hok. subst w'.
  split; [|split; [|split]].
  - rewrite set_fresh by done. simpl.
    match goal with |- context [foldl (add_path dest) ?i ?l] =>
      destruct (add_paths_frame dest l i) as (_ & -> & _) end.
    done.
  - rewrite set_fresh by done. simpl.
    rewrite add_paths_states. simpl. set_solver.
  - intros s. rewrite set_fresh by done. simpl. by rewrite add_paths_lookup.
  - intros sources2 Hsame.
    rewrite (set_fresh name sources dest w Hok),
      (set_fresh name sources2 dest w Hok). simpl. split.
    + rewrite !add_paths_states. simpl. apply set_eq. intros s.
      rewrite !elem_of_union, !elem_of_list_to_set. by rewrite Hsame.
    + apply map_eq. intros s. rewrite !add_paths_lookup. simpl.
      destruct (decide (s ∈ source_list sources)) as [H1|H1];
        destruct (decide (s ∈ source_list sources2)) as [H2|H2];
        try done; exfalso; apply Hsame in H1 || apply Hsame in H2; done.
Qed.

(** The hypothesis of [set_effect] can be met: a source given twice. *)
Lemma set_effect_witness :
  let w := constructor "A" in
  let w' := after (set "go" (SourceArray ["A"; "B"; "A"]) "C" w) in
  transitions (this w')
  = <["go" := FSMTransition.new "go" ["A"; "B"; "A"] "C"]>
      (transitions (this w))
  ∧ states (this w')
    = {["C"]} ∪ list_to_set ["A"; "B"; "A"] ∪ states (this w)
  ∧ (∀ s, paths (this w') !! s
          = if decide (s ∈ ["A"; "B"; "A"])
            then Some ({["C"]} ∪ default ∅ (paths (this w) !! s))
            else paths (this w) !! s)
  ∧ ∀ sources2,
      (∀ s, s ∈ ["A"; "B"; "A"] ↔ s ∈ source_list sources2) →
      states (this (after (set "go" sources2 "C" w))) = states (this w')
      ∧ paths (this (after (set "go" sources2 "C" w))) = paths (this w').
Proof.
  apply (set_effect "go" (SourceArray ["A"; "B"; "A"]) "C" (constructor "A")).
  eexists. vm_compute. reflexivity.
Defined.

(** X7.  [set] with an empty source array succeeds on a new name: it
    makes [dest] a known state, records no path, and stores a transition
    that can never be taken: in every world where [name] maps to it,
    [can(name)] returns [false] and [move(name)] is rejected and changes
    nothing. *)
Theorem set_no_sources (code : ListenerCode) (name dest : string)
    (w : World) :
  transitions (this w) !! name = None →
  let w' := after (set name (SourceArray []) dest w) in
  completion (set name (SourceArray []) dest w) = Normal (this w')
  ∧ states (this w') = {[dest]} ∪ states (this w)
  ∧ paths (this w') = paths (this w)
  ∧ ∀ v, transitions (this v) !! name = transitions (this w') !! name →
      completion (can name v) = Normal false
      ∧ rejected (move code name v)
      ∧ after (move code name v) = v
      ∧ calls (move code name v) = [].
Proof.
  intros Hnone w'.
  pose proof (set_registers name (SourceArray []) dest w Hnone) as Hreg.
  fold w' in Hreg.
  pose proof (set_fresh name (SourceArray []) dest w Hnone) as E.
  cbn [source_list foldl] in E.
  split; [by subst w'; rewrite E|]. split; [by subst w'; rewrite E|].
  split; [by subst w'; rewrite E|].
  intros v Hv. rewrite Hreg in Hv. clear E Hreg.
  assert (Hl : ¬ legal (FSMTransition.new name (source_list (SourceArray []))
                          dest) v).
  { intros [Hw|Hs]; [done|]. by apply elem_of_nil in Hs. }
  rewrite (can_registered _ _ _ Hv), (move_illegal code _ _ _ Hv Hl).
  cbn [completion after calls].
  rewrite bool_decide_eq_false_2 by done.
  split; [done|]. split; [by eexists|done].
Qed.

Lemma set_no_sources_witness :
  let w' := after (set "never" (SourceArray []) "C" two_listeners) in
  completion (set "never" (SourceArray []) "C" two_listeners) = Normal (this w')
  ∧ states (this w') = {["C"]} ∪ states (this two_listeners)
  ∧ paths (this w') = paths (this two_listeners)
  ∧ ∀ v, transitions (this v) !! "never" = transitions (this w') !! "never" →
      completion (can "never" v) = Normal false
      ∧ rejected (move passive_code "never" v)
      ∧ after (move passive_code "never" v) = v
      ∧ calls (move passive_code "never" v) = [].
Proof.
  apply (set_no_sources passive_code "never" "C" two_listeners).
  vm_compute. reflexivity.
Defined.

(** ** What the methods leave alone *)

Lemma on_fields (state : string) (listener : FSMTransitionCallback)
    (w : World) :
  _state (this (after (on state listener w))) = _state (this w)
  ∧ states (this (after (on state listener w))) = states (this w)
  ∧ transitions (this (after (on state listener w))) = transitions (this w)
  ∧ paths (this (after (on state listener w))) = paths (this w).
Proof.
  destruct (listeners (this w) !! state) as [a|] eqn:E.
  - by rewrite (on_existing _ _ _ _ E).
  - by rewrite (on_absent _ _ _ E).
Qed.

Lemma off_fields (state : string) (listener : option FSMTransitionCallback)
    (w : World) :
  _state (this (after (off state listener w))) = _state (this w)
  ∧ states (this (after (off state listener w))) = states (this w)
  ∧ transitions (this (after (off state listener w))) = transitions (this w)
  ∧ paths (this (after (off state listener w))) = paths (this w).
Proof.
  destruct listener as [listener|]; [|by rewrite off_all].
  run_m. destruct (listeners (this w) !! state) as [a|]; simpl; [|done].
  by destruct (first_index listener (default [] (heap w !! a)) 0).
Qed.

Lemma can_same (name : string) (v w : World) :
  _state (this v) = _state (this w) →
  transitions (this v) = transitions (this w) →
  completion (can name v) = completion (can name w).
Proof. intros Hs Ht. run_m. rewrite Hs, Ht. by repeat case_match. Qed.

Lemma set_keeps_registration (name : string) (t : FSMTransition)
    (n : string) (sources : SourcesArg) (dest : string) (w : World) :
  transitions (this w) !! name = Some t →
  transitions (this (after (set n sources dest w))) !! name = Some t.
Proof.
  intros H. destruct (transitions (this w) !! n) as [t'|] eqn:E.
  - by rewrite set_taken by (by rewrite E).
  - rewrite set_fresh by done. simpl.
    match goal with |- context [foldl (add_path dest) ?i ?l] =>
      destruct (add_paths_frame dest l i) as (_ & -> & _) end.
    simpl. rewrite lookup_insert_ne; [done|]. congruence.
Qed.

Lemma move_keeps (code : ListenerCode) (P : World → Prop) (name : string)
    (w : World) :
  (∀ dest v, P v → P (switched dest v)) →
  (∀ l from to v, P v → P (code l from to v).1) →
  P w → P (after (move code name w)).
Proof.
  intros Hsw Hc Hw. destruct (transitions (this w) !! name) as [t|] eqn:E.
  - destruct (decide (legal t w)) as [Hl|Hl].
    + rewrite (move_legal code _ _ _ E Hl).
      destruct (listeners (this w) !! FSMTransition.dest t) as [a|];
        [|by apply Hsw].
      simpl. unfold forEach. run_m.
      by apply (forEach_from_preserves code P), Hsw.
    + by rewrite (move_illegal code _ _ _ E Hl).
  - by rewrite (move_unregistered code _ _ E).
Qed.

(** X8.  A registered transition is there to stay: no call of [on],
    [off], [can] or [set] removes or replaces it (a [set] on its name
    fails, a [set] on another name adds beside it), and neither does
    [move], as long as the code of the listeners does not. *)
Theorem registration_stays (name : string) (t : FSMTransition) (w : World) :
  transitions (this w) !! name = Some t →
  (∀ state listener,
     transitions (this (after (on state listener w))) !! name = Some t)
  ∧ (∀ state listener,
       transitions (this (after (off state listener w))) !! name = Some t)
  ∧ (∀ n, transitions (this (after (can n w))) !! name = Some t)
  ∧ (∀ n sources dest,
       transitions (this (after (set n sources dest w))) !! name = Some t)
  ∧ (∀ code n,
       (∀ l from to v, transitions (this v) !! name = Some t →
                       transitions (this (code l from to v).1) !! name
                       = Some t) →
       transitions (this (after (move code n w))) !! name = Some t).
Proof.
  intros H. split; [|split; [|split; [|split]]].
  - intros state listener.
    destruct (on_fields state listener w) as (_ & _ & Ht & _).
    by rewrite Ht.
  - intros state listener.
    destruct (off_fields state listener w) as (_ & _ & Ht & _).
    by rewrite Ht.
  - intros n. run_m. by repeat case_match.
  - intros n sources dest. by apply set_keeps_registration.
  - intros code n Hc.
    by apply (move_keeps code
                (λ v, transitions (this v) !! name = Some t)).
Qed.

Lemma registration_stays_witness :
  let t := FSMTransition.make "go" ["A"] "C" false in
  let w := two_listeners in
  (∀ state listener,
     transitions (this (after (on state listener w))) !! "go" = Some t)
  ∧ (∀ state listener,
       transitions (this (after (off state listener w))) !! "go" = Some t)
  ∧ (∀ n, transitions (this (after (can n w))) !! "go" = Some t)
  ∧ (∀ n sources dest,
       transitions (this (after (set n sources dest w))) !! "go" = Some t)
  ∧ (∀ code n,
       (∀ l from to v, transitions (this v) !! "go" = Some t →
                       transitions (this (code l from to v).1) !! "go"
                       = Some t) →
       transitions (this (after (move code n w))) !! "go" = Some t).
Proof.
  apply (registration_stays "go" (FSMTransition.make "go" ["A"] "C" false)
           two_listeners).
  vm_compute. reflexivity.
Defined.

(** X9.  Registering and unregistering listeners has no bearing on
    legality: [on] and [off] leave the current state, the known states,
    the transitions and the paths as they were, so [can] answers the same
    for every name before and after. *)
Theorem listeners_apart (state : string) (w : World) :
  (∀ listener,
     let i := this (after (on state listener w)) in
     _state i = _state (this w) ∧ states i = states (this w)
     ∧ transitions i = transitions (this w) ∧ paths i = paths (this w)
     ∧ ∀ name, completion (can name (after (on state listener w)))
               = completion (can name w))
  ∧ (∀ listener,
       let i := this (after (off state listener w)) in
       _state i = _state (this w) ∧ states i = states (this w)
       ∧ transitions i = transitions (this w) ∧ paths i = paths (this w)
       ∧ ∀ name, completion (can name (after (off state listener w)))
                 = completion (can name w)).
Proof.
  split; intros listener i.
  - destruct (on_fields state listener w) as (Hs & Hk & Ht & Hp).
    repeat (split; [done|]). intros name. by apply can_same.
  - destruct (off_fields state listener w) as (Hs & Hk & Ht & Hp).
    repeat (split; [done|]). intros name. by apply can_same.
Qed.

(** ** The dispatch, whatever the listeners do *)

Lemma forEach_from_bounded (code : ListenerCode) (a : ArrayRef)
    (from to : string) (n k : nat) (v : World) :
  length (calls (forEach_from code a from to k n v)) ≤ n
  ∧ Forall (λ c, arg_from c = from ∧ arg_to c = to)
           (calls (forEach_from code a from to k n v)).
Proof.
  revert k v. induction n as [|n IH]; intros k v; simpl.
  - split; [done|constructor].
  - run_m. destruct (default [] (heap v !! a) !! k) as [x|]; simpl.
    + unfold call. simpl. destruct (code x from to v).2; simpl.
      * split; [lia|]. by repeat constructor.
      * destruct (IH (S k) (code x from to v).1) as [Hn Hf].
        split; [lia|]. by constructor.
    + destruct (IH (S k) v) as [Hn Hf]. split; [lia|done].
Qed.

(** X10.  Whatever the listeners do, one [move] calls at most as many
    listeners as the destination had callbacks when the move started, and
    every call it makes carries the state the move started from and the
    destination as [from] and [to]: callbacks added while the listeners
    run are not called by this move. *)
Theorem move_calls_bounded (code : ListenerCode) (name : string)
    (t : FSMTransition) (w : World) :
  transitions (this w) !! name = Some t →
  length (calls (move code name w))
  ≤ length (callbacks (FSMTransition.dest t) w)
  ∧ Forall (λ c, arg_from c = _state (this w)
                 ∧ arg_to c = FSMTransition.dest t)
           (calls (move code name w)).
Proof.
  intros H. destruct (decide (legal t w)) as [Hl|Hl].
  - rewrite (move_legal code _ _ _ H Hl). unfold callbacks.
    destruct (listeners (this w) !! FSMTransition.dest t) as [a|]; simpl;
      [|split; [done|constructor]].
    unfold forEach. run_m. apply forEach_from_bounded.
  - rewrite (move_illegal code _ _ _ H Hl). simpl.
    split; [lia|constructor].
Qed.

(** The bound is met with fewer calls by the listener that takes itself
    off the destination: one call for two callbacks. *)
Lemma move_calls_bounded_witness :
  length (calls (move (unregistering_code "C") "go" two_listeners))
  ≤ length (callbacks "C" two_listeners)
  ∧ Forall (λ c, arg_from c = _state (this two_listeners) ∧ arg_to c = "C")
           (calls (move (unregistering_code "C") "go" two_listeners)).
Proof.
  apply (move_calls_bounded (unregistering_code "C") "go"
           (FSMTransition.make "go" ["A"] "C" false) two_listeners).
  vm_compute. reflexivity.
Defined.

(** ** [on] followed by [off] *)

Lemma off_callbacks_first (state : string) (listener : FSMTransitionCallback)
    (w : World) (l1 l2 : list FSMTransitionCallback) :
  callbacks state w = l1 ++ listener :: l2 →
  listener ∉ l1 →
  callbacks state (after (off state (Some listener) w)) = l1 ++ l2
  ∧ this (after (off state (Some listener) w)) = this w.
Proof.
  intros Hc H1. unfold callbacks in Hc |- *.
  destruct (listeners (this w) !! state) as [a|] eqn:E; [|by destruct l1].
  rewrite (off_first _ _ _ _ _ _ E Hc H1). simpl.
  by rewrite E, lookup_insert_eq.
Qed.

Lemma off_some_this (state : string) (listener : FSMTransitionCallback)
    (w : World) :
  this (after (off state (Some listener) w)) = this w.
Proof.
  run_m. destruct (listeners (this w) !! state) as [a|]; simpl; [|done].
  by destruct (first_index listener (default [] (heap w !! a)) 0).
Qed.

(** X11.  [off(state, listener)] right after [on(state, listener)] gives
    back the callback list when [listener] was not in it; when it was, the
    entry taken out is the oldest one, so the listener ends up last.  The
    state keeps its array, possibly empty. *)
Theorem on_then_off (state : string) (listener : FSMTransitionCallback)
    (w : World) :
  let w2 := after (off state (Some listener) (after (on state listener w))) in
  (listener ∉ callbacks state w → callbacks state w2 = callbacks state w)
  ∧ (∀ l1 l2, callbacks state w = l1 ++ listener :: l2 → listener ∉ l1 →
       callbacks state w2 = l1 ++ l2 ++ [listener])
  ∧ is_Some (listeners (this w2) !! state).
Proof.
  intros w2. subst w2. split; [|split].
  - intros Hout.
    destruct (off_callbacks_first state listener
                (after (on state listener w)) (callbacks state w) [])
      as [-> _]; [apply on_callbacks|done|by rewrite app_nil_r].
  - intros l1 l2 Hc H1.
    destruct (off_callbacks_first state listener
                (after (on state listener w)) l1 (l2 ++ [listener]))
      as [-> _]; [|done|done].
    rewrite on_callbacks, Hc. by rewrite <- app_assoc.
  - rewrite off_some_this.
    destruct (listeners (this w) !! state) as [a|] eqn:E.
    + rewrite (on_existing _ _ _ _ E). simpl. by rewrite E.
    + rewrite (on_absent _ _ _ E). simpl. by rewrite lookup_insert_eq.
Qed.

(** ** The index and the transitions agree *)

Lemma new_sources_given (name : string) (l : list string) (dest s : string) :
  s ∈ FSMTransition.sources (FSMTransition.new name l dest) → s ∈ l.
Proof.
  destruct (decide ("*" ∈ l)) as [Hin|Hout].
  - rewrite (new_wildcard _ _ _ Hin). simpl.
    intros H. by apply list_elem_of_singleton in H as ->.
  - by rewrite (new_explicit _ _ _ Hout).
Qed.

Lemma new_takes (name : string) (l : list string) (dest s : string) :
  s ∈ l →
  FSMTransition.willcard (FSMTransition.new name l dest) = true
  ∨ s ∈ FSMTransition.sources (FSMTransition.new name l dest).
Proof.
  intros Hs. destruct (decide ("*" ∈ l)) as [Hin|Hout].
  - rewrite (new_wildcard _ _ _ Hin). by left.
  - rewrite (new_explicit _ _ _ Hout). by right.
Qed.

Lemma add_paths_keep_any (dest s d : string) (l : list string)
    (i : FSMInstance) :
  path_recorded s d i → path_recorded s d (foldl (add_path dest) i l).
Proof.
  intros [Hs (path & Hp & Hd)]. split.
  - rewrite add_paths_states. set_solver.
  - rewrite add_paths_lookup, Hp. simpl.
    destruct (decide (s ∈ l)); [|by exists path].
    exists ({[dest]} ∪ path). split; [done|set_solver].
Qed.

Lemma indexed_same (i i' : FSMInstance) :
  states i' = states i → transitions i' = transitions i →
  paths i' = paths i → indexed i → indexed i'.
Proof.
  intros Hs Ht Hp H name t. unfold path_recorded. rewrite Hs, Ht, Hp.
  apply H.
Qed.

Lemma realisable_same (i i' : FSMInstance) :
  transitions i' = transitions i → paths i' = paths i →
  realisable i → realisable i'.
Proof. intros Ht Hp H s path d. rewrite Ht, Hp. apply H. Qed.

Lemma set_indexed (name : string) (sources : SourcesArg) (dest : string)
    (w : World) :
  indexed (this w) → indexed (this (after (set name sources dest w))).
Proof.
  intros H. destruct (transitions (this w) !! name) as [t'|] eqn:E.
  - by rewrite set_taken by (by rewrite E).
  - rewrite set_fresh by done. simpl. intros n t Hn.
    match type of Hn with context [foldl (add_path dest) ?i ?l] =>
      destruct (add_paths_frame dest l i) as (_ & Ht & _) end.
    rewrite Ht in Hn. simpl in Hn.
    destruct (decide (name = n)) as [->|Hne].
    + rewrite lookup_insert_eq in Hn. injection Hn as <-.
      rewrite new_dest. split.
      * apply add_paths_dest_known. simpl. set_solver.
      * intros s Hs. apply add_paths_record. by eapply new_sources_given.
    + rewrite lookup_insert_ne in Hn by done.
      destruct (H n t Hn) as [Hd Hs]. split.
      * apply add_paths_dest_known. simpl. set_solver.
      * intros s Hin. apply add_paths_keep_any.
        destruct (Hs s Hin) as [Hk Hp]. split; [simpl; set_solver|done].
Qed.

Lemma set_realisable (name : string) (sources : SourcesArg) (dest : string)
    (w : World) :
  realisable (this w) → realisable (this (after (set name sources dest w))).
Proof.
  intros H. destruct (transitions (this w) !! name) as [t'|] eqn:E.
  - by rewrite set_taken by (by rewrite E).
  - rewrite set_fresh by done. simpl. intros s path d Hp Hd.
    match goal with |- context [foldl (add_path dest) ?i ?l] =>
      destruct (add_paths_frame dest l i) as (_ & Ht & _) end.
    rewrite Ht. simpl. rewrite add_paths_lookup in Hp. simpl in Hp.
    assert (Hold : ∀ p, paths (this w) !! s = Some p → d ∈ p →
              ∃ n t, <[name := FSMTransition.new name (source_list sources)
                                 dest]> (transitions (this w)) !! n = Some t
                     ∧ FSMTransition.dest t = d
                     ∧ (FSMTransition.willcard t = true
                        ∨ s ∈ FSMTransition.sources t)).
    { intros p Hs Hin. destruct (H s p d Hs Hin) as (n & t & Hn & Ho).
      exists n, t. split; [|done].
      rewrite lookup_insert_ne; [done|]. congruence. }
    destruct (decide (s ∈ source_list sources)) as [Hin|Hout];
      [|by eapply Hold].
    injection Hp as <-. apply elem_of_union in Hd as [Hd|Hd].
    + apply elem_of_singleton in Hd as ->.
      exists name, (FSMTransition.new name (source_list sources) dest).
      split; [apply lookup_insert_eq|]. split; [apply new_dest|].
      by apply new_takes.
    + destruct (paths (this w) !! s) as [p|] eqn:Es; simpl in Hd;
        [by eapply Hold|]. by apply not_elem_of_empty in Hd.
Qed.

(** X12.  The index covers the transitions.  After construction and after
    every method call (for [move], when the code of the listeners keeps
    it so), the destination and the stored sources of every stored
    transition are known states and the destination is in the paths set
    of each stored source.  So whenever a [move] by a transition that is
    not wildcard is accepted, the state it leaves is a known state with
    the destination among its recorded paths. *)
Theorem index_covers_transitions :
  (∀ init, indexed (this (constructor init)))
  ∧ (∀ w, indexed (this w) →
       (∀ state listener, indexed (this (after (on state listener w))))
       ∧ (∀ state listener, indexed (this (after (off state listener w))))
       ∧ (∀ name sources dest,
            indexed (this (after (set name sources dest w))))
       ∧ (∀ code name,
            (∀ l from to v, indexed (this v) →
                            indexed (this (code l from to v).1)) →
            indexed (this (after (move code name w)))))
  ∧ ∀ code name t w,
      indexed (this w) →
      transitions (this w) !! name = Some t →
      FSMTransition.willcard t = false →
      ¬ rejected (move code name w) →
      FSMTransition.dest t ∈ states (this w)
      ∧ path_recorded (_state (this w)) (FSMTransition.dest t) (this w).
Proof.
  split; [|split].
  - intros init name t H. simpl in H. by rewrite lookup_empty in H.
  - intros w Hw. split; [|split; [|split]].
    + intros state listener.
      destruct (on_fields state listener w) as (_ & Hs & Ht & Hp).
      by apply (indexed_same (this w)).
    + intros state listener.
      destruct (off_fields state listener w) as (_ & Hs & Ht & Hp).
      by apply (indexed_same (this w)).
    + intros. by apply set_indexed.
    + intros code name Hc.
      by apply (move_keeps code (λ v, indexed (this v))).
  - intros code name t w Hw Ht Hwild Hacc.
    destruct (Hw name t Ht) as [Hd Hs]. split; [done|]. apply Hs.
    destruct (decide (legal t w)) as [[Hl|Hl]|Hl]; [congruence|done|].
    exfalso. apply Hacc. rewrite (move_illegal code _ _ _ Ht Hl).
    by eexists.
Qed.

(** X13.  The transitions cover the index.  After construction and after
    every method call (for [move], when the code of the listeners keeps
    it so), every recorded path can be taken: when [d] is in the paths
    set of [s], some stored transition leads to [d] and is wildcard or
    has [s] among its sources, so that with [s] as current state [can]
    returns [true] for it and [move] is accepted. *)
Theorem index_within_transitions :
  (∀ init, realisable (this (constructor init)))
  ∧ (∀ w, realisable (this w) →
       (∀ state listener, realisable (this (after (on state listener w))))
       ∧ (∀ state listener, realisable (this (after (off state listener w))))
       ∧ (∀ name sources dest,
            realisable (this (after (set name sources dest w))))
       ∧ (∀ code name,
            (∀ l from to v, realisable (this v) →
                            realisable (this (code l from to v).1)) →
            realisable (this (after (move code name w)))))
  ∧ ∀ w s path d,
      realisable (this w) →
      paths (this w) !! s = Some path → d ∈ path →
      ∃ name t, transitions (this w) !! name = Some t
                ∧ FSMTransition.dest t = d
                ∧ completion (can name (switched s w)) = Normal true
                ∧ ∀ code, ¬ rejected (move code name (switched s w)).
Proof.
  split; [|split].
  - intros init s path d H. simpl in H. by rewrite lookup_empty in H.
  - intros w Hw. split; [|split; [|split]].
    + intros state listener.
      destruct (on_fields state listener w) as (_ & _ & Ht & Hp).
      by apply (realisable_same (this w)).
    + intros state listener.
      destruct (off_fields state listener w) as (_ & _ & Ht & Hp).
      by apply (realisable_same (this w)).
    + intros. by apply set_realisable.
    + intros code name Hc.
      by apply (move_keeps code (λ v, realisable (this v))).
  - intros w s path d Hw Hp Hd.
    destruct (Hw s path d Hp Hd) as (name & t & Ht & Hdest & Hl).
    exists name, t. split; [done|]. split; [done|].
    assert (Hleg : legal t (switched s w)) by done.
    assert (Ht' : transitions (this (switched s w)) !! name = Some t) by done.
    split.
    + rewrite (can_registered _ _ _ Ht'). by rewrite bool_decide_eq_true_2.
    + intros code. by apply (legal_move_passes code _ _ _ Ht').
Qed.

(** ** One listener that calls back into the instance *)

Section OneActive.

Variable code : ListenerCode.

(** The loop of [forEach] over [n1 + n2] indices is the loop over the
    first [n1] followed, unless a listener threw, by the loop over the
    other [n2]. *)
Lemma forEach_from_app (a : ArrayRef) (from to : string) (n1 n2 : nat) :
  ∀ k v,
  forEach_from code a from to k (n1 + n2) v
  = let o1 := forEach_from code a from to k n1 v in
    match completion o1 with
    | Normal _ =>
        let o2 := forEach_from code a from to (k + n1) n2 (after o1) in
        {| after := after o2; calls := calls o1 ++ calls o2;
           completion := completion o2 |}
    | Throw e =>
        {| after := after o1; calls := calls o1; completion := Throw e |}
    end.
Proof.
  induction n1 as [|n1 IH]; intros k v.
  - simpl. rewrite Nat.add_0_r.
    by destruct (forEach_from code a from to k n2 v).
  - change (S n1 + n2) with (S (n1 + n2)). simpl. run_m.
    destruct (default [] (heap v !! a) !! k) as [x|]; simpl.
    + unfold call. simpl. destruct (code x from to v).2; simpl; [done|].
      rewrite IH. simpl. rewrite Nat.add_succ_r.
      destruct (completion (forEach_from code a from to (S k) n1
                              (code x from to v).1)); simpl; done.
    + rewrite IH. simpl. rewrite Nat.add_succ_r.
      destruct (completion (forEach_from code a from to (S k) n1 v));
        simpl; done.
Qed.

(** The loop over indices that hold quiet listeners, or nothing. *)
Lemma forEach_from_quiet_part (a : ArrayRef) (from to : string) (v : World) :
  ∀ n k,
  (∀ l, l ∈ take n (drop k (default [] (heap v !! a))) → quiet code l) →
  forEach_from code a from to k n v
  = {| after := v;
       calls := map (λ l, {| callee := l; arg_instance := this v;
                             arg_from := from; arg_to := to |})
                    (take n (drop k (default [] (heap v !! a))));
       completion := Normal () |}.
Proof.
  induction n as [|n IH]; intros k Hq; simpl.
  - done.
  - run_m. destruct (default [] (heap v !! a) !! k) as [x|] eqn:Hx; simpl.
    + rewrite (drop_S _ _ _ Hx) in Hq |- *. simpl in *.
      assert (Hcx : code x from to v = (v, None)) by (apply Hq; left).
      unfold call. simpl. rewrite Hcx. simpl.
      rewrite IH; [done|]. intros l Hl. apply Hq. by right.
    + apply lookup_ge_None in Hx.
      rewrite IH by (rewrite drop_ge by lia; rewrite take_nil;
                     intros l Hl; by apply elem_of_nil in Hl).
      simpl. by rewrite !drop_ge, !take_nil by lia.
Qed.

(** A legal move on a destination whose callbacks are quiet but for one
    of them, [l0], which returns normally: the callbacks before [l0] are
    called, then [l0], then what the array holds, in the world [l0] left,
    at the indices that remain. *)
Lemma move_one_active (name : string) (t : FSMTransition) (w : World)
    (a : ArrayRef) (l1 l2 : list FSMTransitionCallback)
    (l0 : FSMTransitionCallback) (v1 : World) :
  transitions (this w) !! name = Some t →
  legal t w →
  listeners (this w) !! FSMTransition.dest t = Some a →
  default [] (heap w !! a) = l1 ++ l0 :: l2 →
  (∀ l, l ∈ l1 → quiet code l) →
  code l0 (_state (this w)) (FSMTransition.dest t)
       (switched (FSMTransition.dest t) w) = (v1, None) →
  (∀ l, l ∈ take (length l2)
              (drop (S (length l1)) (default [] (heap v1 !! a))) →
        quiet code l) →
  move code name w
  = {| after := v1;
       calls :=
         map (λ l, {| callee := l;
                      arg_instance :=
                        this (switched (FSMTransition.dest t) w);
                      arg_from := _state (this w);
                      arg_to := FSMTransition.dest t |}) (l1 ++ [l0])
         ++ map (λ l, {| callee := l; arg_instance := this v1;
                         arg_from := _state (this w);
                         arg_to := FSMTransition.dest t |})
                (take (length l2)
                   (drop (S (length l1)) (default [] (heap v1 !! a))));
       completion := Normal (this v1) |}.
Proof.
  intros H Hl Ha Hc H1 H0 H2. rewrite (move_legal code _ _ _ H Hl), Ha.
  unfold forEach. run_m. rewrite Hc.
  replace (length (l1 ++ l0 :: l2)) with (length l1 + (1 + length l2))
    by (rewrite length_app; simpl; lia).
  set (v0 := switched (FSMTransition.dest t) w).
  assert (Hc0 : default [] (heap v0 !! a) = l1 ++ l0 :: l2) by done.
  rewrite forEach_from_app.
  rewrite (forEach_from_quiet_part a _ _ v0 (length l1) 0)
    by (rewrite Hc0, drop_0, take_app_length; done).
  cbn [completion after calls]. rewrite Nat.add_0_l.
  rewrite Hc0, drop_0, take_app_length.
  rewrite forEach_from_app.
  assert (Hstep : forEach_from code a (_state (this w))
                    (FSMTransition.dest t) (length l1) 1 v0
                  = {| after := v1;
                       calls := [{| callee := l0; arg_instance := this v0;
                                    arg_from := _state (this w);
                                    arg_to := FSMTransition.dest t |}];
                       completion := Normal () |}).
  { simpl. run_m. rewrite Hc0. rewrite list_lookup_middle by done. simpl.
    unfold call. simpl. unfold v0. by rewrite H0. }
  rewrite Hstep. cbn [completion after calls].
  rewrite (forEach_from_quiet_part a _ _ v1 (length l2) (length l1 + 1))
    by (by rewrite Nat.add_1_r).
  cbn [completion after calls]. rewrite Nat.add_1_r.
  by rewrite map_app, <- app_assoc.
Qed.

End OneActive.

Lemma callbacks_array (state : string) (w : World)
    (x : FSMTransitionCallback) (l1 l2 : list FSMTransitionCallback) :
  callbacks state w = l1 ++ x :: l2 →
  ∃ a, listeners (this w) !! state = Some a
       ∧ default [] (heap w !! a) = l1 ++ x :: l2.
Proof.
  unfold callbacks. destruct (listeners (this w) !! state) as [a|].
  - intros H. by exists a.
  - intros H. by destruct l1.
Qed.

Lemma callee_of_calls (i : FSMInstance) (from to : string)
    (l : list FSMTransitionCallback) :
  map callee (map (λ x, {| callee := x; arg_instance := i;
                           arg_from := from; arg_to := to |}) l) = l.
Proof. rewrite map_map. simpl. apply map_id. Qed.

(** X14.  The hazard of the listener that takes itself off.  Let the
    callbacks of the destination of a legal move be quiet but for one,
    [l0], whose code is [instance.off(dest, l0)].  Then [move] calls the
    callbacks up to and including [l0], skips the callback that followed
    [l0], and calls the remaining ones; afterwards [l0] is gone from the
    list and [move] has returned the instance. *)
Theorem self_removal_skips_next (code : ListenerCode) (name : string)
    (t : FSMTransition) (w : World)
    (l1 l2 : list FSMTransitionCallback) (l0 : FSMTransitionCallback) :
  transitions (this w) !! name = Some t →
  legal t w →
  callbacks (FSMTransition.dest t) w = l1 ++ l0 :: l2 →
  l0 ∉ l1 →
  (∀ l, l ∈ l1 ++ l2 → quiet code l) →
  (∀ from to v,
     code l0 from to v
     = (after (off (FSMTransition.dest t) (Some l0) v), None)) →
  map callee (calls (move code name w)) = l1 ++ l0 :: drop 1 l2
  ∧ callbacks (FSMTransition.dest t) (after (move code name w)) = l1 ++ l2
  ∧ completion (move code name w)
    = Normal (this (after (move code name w))).
Proof.
  intros H Hl Hc H1 Hq H0.
  destruct (callbacks_array _ _ _ _ _ Hc) as (a & Ha & Hc').
  set (v0 := switched (FSMTransition.dest t) w).
  assert (Hoff : off (FSMTransition.dest t) (Some l0) v0
                 = {| after := {| this := this v0;
                                  heap := <[a := l1 ++ l2]> (heap v0) |};
                      calls := []; completion := Normal (this v0) |})
    by (by apply off_first).
  assert (Hrest : take (length l2)
                    (drop (S (length l1)) (l1 ++ l2)) = drop 1 l2).
  { replace (S (length l1)) with (length l1 + 1) by lia.
    rewrite drop_app_add. apply take_ge. rewrite length_drop. lia. }
  rewrite (move_one_active code name t w a l1 l2 l0
             {| this := this v0; heap := <[a := l1 ++ l2]> (heap v0) |}
             H Hl Ha Hc').
  - cbn [after calls completion this heap].
    rewrite lookup_insert_eq. cbn [default from_option id]. rewrite Hrest.
    rewrite map_app, !callee_of_calls, <- app_assoc.
    split; [done|]. split; [|done].
    unfold callbacks. cbn [this heap].
    assert (Ha0 : listeners (this v0) !! FSMTransition.dest t = Some a) by done.
    by rewrite Ha0, lookup_insert_eq.
  - intros l Hin. apply Hq, elem_of_app. by left.
  - rewrite H0. fold v0. by rewrite Hoff.
  - cbn [heap]. rewrite lookup_insert_eq. cbn [default from_option id]. rewrite Hrest.
    intros l Hin. apply Hq, elem_of_app. right.
    by apply (subseteq_drop 1 l2).
Qed.

Lemma self_removal_skips_next_witness :
  map callee (calls (move (unregistering_code "C") "go" two_listeners))
  = [] ++ 0 :: drop 1 [1]
  ∧ callbacks "C" (after (move (unregistering_code "C") "go" two_listeners))
    = [] ++ [1]
  ∧ completion (move (unregistering_code "C") "go" two_listeners)
    = Normal (this (after (move (unregistering_code "C") "go"
                             two_listeners))).
Proof.
  apply (self_removal_skips_next (unregistering_code "C") "go"
           (FSMTransition.make "go" ["A"] "C" false) two_listeners [] [1] 0).
  - vm_compute. reflexivity.
  - right. vm_compute. left.
  - vm_compute. reflexivity.
  - apply not_elem_of_nil.
  - intros l Hl. apply list_elem_of_singleton in Hl as ->. by intros ? ? ?.
  - by intros ? ? ?.
Defined.

(** X15.  A callback registered for the destination while its listeners
    run is not called by the move under way.  Let the callbacks of the
    destination of a legal move be quiet but for one, [l0], whose code is
    [instance.on(dest, x)].  Then [move] calls exactly the callbacks the
    destination had, in order, and afterwards [x] is the last callback of
    the destination. *)
Theorem registered_meanwhile_not_called (code : ListenerCode) (name : string)
    (t : FSMTransition) (w : World)
    (l1 l2 : list FSMTransitionCallback) (l0 x : FSMTransitionCallback) :
  transitions (this w) !! name = Some t →
  legal t w →
  callbacks (FSMTransition.dest t) w = l1 ++ l0 :: l2 →
  (∀ l, l ∈ l1 ++ l2 → quiet code l) →
  (∀ from to v,
     code l0 from to v = (after (on (FSMTransition.dest t) x v), None)) →
  map callee (calls (move code name w)) = l1 ++ l0 :: l2
  ∧ callbacks (FSMTransition.dest t) (after (move code name w))
    = (l1 ++ l0 :: l2) ++ [x]
  ∧ completion (move code name w)
    = Normal (this (after (move code name w))).
Proof.
  intros H Hl Hc Hq H0.
  destruct (callbacks_array _ _ _ _ _ Hc) as (a & Ha & Hc').
  set (v0 := switched (FSMTransition.dest t) w).
  assert (Ha0 : listeners (this v0) !! FSMTransition.dest t = Some a) by done.
  pose proof (on_existing (FSMTransition.dest t) x v0 a Ha0) as Hon.
  assert (Hc0 : default [] (heap v0 !! a) = l1 ++ l0 :: l2) by done.
  rewrite Hc0 in Hon.
  assert (Hrest : take (length l2)
                    (drop (S (length l1)) ((l1 ++ l0 :: l2) ++ [x])) = l2).
  { replace ((l1 ++ l0 :: l2) ++ [x]) with ((l1 ++ [l0]) ++ (l2 ++ [x]))
      by (by rewrite <- !app_assoc).
    replace (S (length l1)) with (length (l1 ++ [l0]))
      by (rewrite length_app; simpl; lia).
    by rewrite drop_app_length, take_app_length. }
  rewrite (move_one_active code name t w a l1 l2 l0
             {| this := this v0;
                heap := <[a := (l1 ++ l0 :: l2) ++ [x]]> (heap v0) |}
             H Hl Ha Hc').
  - cbn [after calls completion this heap].
    rewrite lookup_insert_eq. cbn [default from_option id]. rewrite Hrest.
    rewrite map_app, !callee_of_calls, <- app_assoc.
    split; [done|]. split; [|done].
    unfold callbacks. cbn [this heap].
    by rewrite Ha0, lookup_insert_eq.
  - intros l Hin. apply Hq, elem_of_app. by left.
  - rewrite H0. fold v0. by rewrite Hon.
  - cbn [heap]. rewrite lookup_insert_eq. cbn [default from_option id]. rewrite Hrest.
    intros l Hin. apply Hq, elem_of_app. by right.
Qed.

Lemma registered_meanwhile_not_called_witness :
  map callee (calls (move (registering_code "C" 5) "go" two_listeners))
  = [] ++ 0 :: [1]
  ∧ callbacks "C" (after (move (registering_code "C" 5) "go" two_listeners))
    = ([] ++ 0 :: [1]) ++ [5]
  ∧ completion (move (registering_code "C" 5) "go" two_listeners)
    = Normal (this (after (move (registering_code "C" 5) "go"
                             two_listeners))).
Proof.
  apply (registered_meanwhile_not_called (registering_code "C" 5) "go"
           (FSMTransition.make "go" ["A"] "C" false) two_listeners [] [1] 0 5).
  - vm_compute. reflexivity.
  - right. vm_compute. left.
  - vm_compute. reflexivity.
  - intros l Hl. apply list_elem_of_singleton in Hl as ->. by intros ? ? ?.
  - by intros ? ? ?.
Defined.

(** X16.  Clearing the destination while its listeners run does not cut
    the move short.  Let the callbacks of the destination of a legal move
    be quiet but for one, [l0], whose code is [instance.off(dest)].  Then
    [move] still calls every callback the destination had, in order: it
    iterates the array it took from the map.  Afterwards the destination
    has no callback. *)
Theorem cleared_meanwhile_still_called (code : ListenerCode) (name : string)
    (t : FSMTransition) (w : World)
    (l1 l2 : list FSMTransitionCallback) (l0 : FSMTransitionCallback) :
  transitions (this w) !! name = Some t →
  legal t w →
  callbacks (FSMTransition.dest t) w = l1 ++ l0 :: l2 →
  (∀ l, l ∈ l1 ++ l2 → quiet code l) →
  (∀ from to v,
     code l0 from to v = (after (off (FSMTransition.dest t) None v), None)) →
  map callee (calls (move code name w)) = l1 ++ l0 :: l2
  ∧ callbacks (FSMTransition.dest t) (after (move code name w)) = []
  ∧ completion (move code name w)
    = Normal (this (after (move code name w))).
Proof.
  intros H Hl Hc Hq H0.
  destruct (callbacks_array _ _ _ _ _ Hc) as (a & Ha & Hc').
  set (v0 := switched (FSMTransition.dest t) w).
  assert (Hrest : take (length l2)
                    (drop (S (length l1)) (l1 ++ l0 :: l2)) = l2).
  { replace (l1 ++ l0 :: l2) with ((l1 ++ [l0]) ++ l2)
      by (by rewrite <- app_assoc).
    replace (S (length l1)) with (length (l1 ++ [l0]))
      by (rewrite length_app; simpl; lia).
    rewrite drop_app_length. by apply take_ge. }
  rewrite (move_one_active code name t w a l1 l2 l0
             (after (off (FSMTransition.dest t) None v0))
             H Hl Ha Hc').
  - rewrite off_all. cbn [after calls completion this heap].
    assert (Hc0 : default [] (heap v0 !! a) = l1 ++ l0 :: l2) by done.
    rewrite Hc0, Hrest.
    rewrite map_app, !callee_of_calls, <- app_assoc.
    split; [done|]. split; [|done].
    unfold callbacks. cbn [this heap listeners with_listeners].
    by rewrite lookup_delete_eq.
  - intros l Hin. apply Hq, elem_of_app. by left.
  - by rewrite H0.
  - rewrite off_all. cbn [after heap].
    assert (Hc0 : default [] (heap v0 !! a) = l1 ++ l0 :: l2) by done.
    rewrite Hc0, Hrest.
    intros l Hin. apply Hq, elem_of_app. by right.
Qed.

Lemma cleared_meanwhile_still_called_witness :
  map callee (calls (move (clearing_code "C") "go" two_listeners))
  = [] ++ 0 :: [1]
  ∧ callbacks "C" (after (move (clearing_code "C") "go" two_listeners)) = []
  ∧ completion (move (clearing_code "C") "go" two_listeners)
    = Normal (this (after (move (clearing_code "C") "go" two_listeners))).
Proof.
  apply (cleared_meanwhile_still_called (clearing_code "C") "go"
           (FSMTransition.make "go" ["A"] "C" false) two_listeners [] [1] 0).
  - vm_compute. reflexivity.
  - right. vm_compute. left.
  - vm_compute. reflexivity.
  - intros l Hl. apply list_elem_of_singleton in Hl as ->. by intros ? ? ?.
  - by intros ? ? ?.
Defined.

(** X17.  A [move] made by a listener takes effect at once.  Let the
    callbacks of the destination [d] of a legal move be quiet but for
    one, [l0], whose code is the call [instance.move(name2)], a move that
    is legal from [d] and whose own destination has quiet listeners, all
    run by the same code as the outer move.  Then the outer [move] calls
    every callback of [d] in order, all with the state it started from and
    [d] as [from] and [to]; the callbacks after [l0] find the instance
    already in the destination of [name2], and that, not [d], is the state
    the outer [move] leaves. *)
Theorem nested_move_wins (code : ListenerCode) (name name2 : string)
    (t t2 : FSMTransition) (w : World)
    (l1 l2 : list FSMTransitionCallback) (l0 : FSMTransitionCallback) :
  transitions (this w) !! name = Some t →
  legal t w →
  callbacks (FSMTransition.dest t) w = l1 ++ l0 :: l2 →
  (∀ l, l ∈ l1 ++ l2 → quiet code l) →
  transitions (this w) !! name2 = Some t2 →
  legal t2 (switched (FSMTransition.dest t) w) →
  (∀ l, l ∈ callbacks (FSMTransition.dest t2) w → quiet code l) →
  code l0 (_state (this w)) (FSMTransition.dest t)
       (switched (FSMTransition.dest t) w)
  = calling (move code name2) (switched (FSMTransition.dest t) w) →
  move code name w
  = {| after := switched (FSMTransition.dest t2) w;
       calls :=
         map (λ l, {| callee := l;
                      arg_instance :=
                        this (switched (FSMTransition.dest t) w);
                      arg_from := _state (this w);
                      arg_to := FSMTransition.dest t |}) (l1 ++ [l0])
         ++ map (λ l, {| callee := l;
                         arg_instance :=
                           this (switched (FSMTransition.dest t2) w);
                         arg_from := _state (this w);
                         arg_to := FSMTransition.dest t |}) l2;
       completion := Normal (this (switched (FSMTransition.dest t2) w)) |}.
Proof.
  intros H Hl Hc Hq H2 Hl2 Hq2 H0.
  destruct (callbacks_array _ _ _ _ _ Hc) as (a & Ha & Hc').
  set (v0 := switched (FSMTransition.dest t) w) in *.
  assert (Hin : move code name2 v0
                = {| after := switched (FSMTransition.dest t2) v0;
                     calls := map (λ l, {| callee := l;
                                           arg_instance :=
                                             this (switched
                                                     (FSMTransition.dest t2)
                                                     v0);
                                           arg_from := _state (this v0);
                                           arg_to := FSMTransition.dest t2 |})
                                  (callbacks (FSMTransition.dest t2) v0);
                     completion :=
                       Normal (this (switched (FSMTransition.dest t2) v0)) |})
    by (by apply move_legal_quiet).
  unfold calling in H0. rewrite Hin in H0. cbn [after completion] in H0.
  assert (Hrest : take (length l2)
                    (drop (S (length l1)) (l1 ++ l0 :: l2)) = l2).
  { replace (l1 ++ l0 :: l2) with ((l1 ++ [l0]) ++ l2)
      by (by rewrite <- app_assoc).
    replace (S (length l1)) with (length (l1 ++ [l0]))
      by (rewrite length_app; simpl; lia).
    rewrite drop_app_length. by apply take_ge. }
  assert (Hc1 : default [] (heap (switched (FSMTransition.dest t2) v0) !! a)
                = l1 ++ l0 :: l2) by done.
  rewrite (move_one_active code name t w a l1 l2 l0
             (switched (FSMTransition.dest t2) v0) H Hl Ha Hc').
  - by rewrite Hc1, Hrest.
  - intros l Hl'. apply Hq, elem_of_app. by left.
  - done.
  - rewrite Hc1, Hrest. intros l Hl'. apply Hq, elem_of_app. by right.
Qed.

(** On [round_trip], listener [0] of ["C"] calls [instance.move("back")]:
    [move("go")] calls [0] and [1] and leaves the instance in ["A"]. *)
Lemma nested_move_wins_witness :
  move (moving_code 2 "back") "go" round_trip
  = {| after := switched "A" round_trip;
       calls :=
         map (λ l, {| callee := l;
                      arg_instance := this (switched "C" round_trip);
                      arg_from := _state (this round_trip);
                      arg_to := "C" |}) ([] ++ [0])
         ++ map (λ l, {| callee := l;
                         arg_instance := this (switched "A" round_trip);
                         arg_from := _state (this round_trip);
                         arg_to := "C" |}) [1];
       completion := Normal (this (switched "A" round_trip)) |}.
Proof.
  apply (nested_move_wins (moving_code 2 "back") "go" "back"
           (FSMTransition.make "go" ["A"] "C" false)
           (FSMTransition.make "back" ["C"] "A" false)
           round_trip [] [1] 0).
  - vm_compute. reflexivity.
  - right. vm_compute. left.
  - vm_compute. reflexivity.
  - intros l Hl. apply list_elem_of_singleton in Hl as ->. by intros ? ? ?.
  - vm_compute. reflexivity.
  - right. left.
  - intros l Hl. exfalso.
    assert (E : callbacks "A" round_trip = []) by (vm_compute; reflexivity).
    change (l ∈ callbacks "A" round_trip) in Hl.
    rewrite E in Hl. by apply elem_of_nil in Hl.
  - vm_compute. reflexivity.
Defined.

(** X18.  The index does not follow the wildcard.  A successful [set]
    whose sources hold the token leaves the paths entry of every state
    that is not among the given sources as it was, although [move(name)]
    is from then on accepted with that state as current state: paths
    records the token and the explicit sources given, not the states a
    wildcard transition can be taken from. *)
Theorem wildcard_not_indexed (code : ListenerCode) (name : string)
    (sources : SourcesArg) (dest s : string) (w : World) :
  transitions (this w) !! name = None →
  "*" ∈ source_list sources →
  s ∉ source_list sources →
  let w' := after (set name sources dest w) in
  paths (this w') !! s = paths (this w) !! s
  ∧ completion (can name (switched s w')) = Normal true
  ∧ ¬ rejected (move code name (switched s w')).
Proof.
  intros Hnone Hstar Hs w'.
  pose proof (set_registers name sources dest w Hnone) as Hreg. fold w' in Hreg.
  rewrite (new_wildcard _ _ _ Hstar) in Hreg.
  assert (Hreg' : transitions (this (switched s w')) !! name
                  = Some (FSMTransition.make name ["*"] dest true)) by done.
  assert (Hl : legal (FSMTransition.make name ["*"] dest true)
                 (switched s w')) by (by left).
  split; [|split].
  - subst w'. rewrite set_fresh by done. simpl.
    rewrite add_paths_lookup. by rewrite decide_False.
  - rewrite (can_registered _ _ _ Hreg'). by rewrite bool_decide_eq_true_2.
  - by apply (legal_move_passes code _ _ _ Hreg').
Qed.

Lemma wildcard_not_indexed_witness :
  let w' := after (set "reset" (SourceArray ["A"; "*"]) "idle"
                     (constructor "B")) in
  paths (this w') !! "B" = paths (this (constructor "B")) !! "B"
  ∧ completion (can "reset" (switched "B" w')) = Normal true
  ∧ ¬ rejected (move passive_code "reset" (switched "B" w')).
Proof.
  apply (wildcard_not_indexed passive_code "reset" (SourceArray ["A"; "*"])
           "idle" "B" (constructor "B")).
  - reflexivity.
  - right. left.
  - intros H. apply list_elem_of_In in H. simpl in H.
    destruct H as [H|[H|[]]]; discriminate.
Defined.

(** X19.  A move refused inside a listener makes the outer move fail.
    Let the first callback [l0] of the destination [d] of a legal move be
    the call [instance.move(name2)], where [name2] is not registered or
    may not be taken from [d].  Then the outer [move] calls [l0] and no
    other listener, and fails with the [RangeError] of the nested move,
    although its own transition is registered and legal; the state stays
    [d]. *)
Theorem nested_refusal_escapes (code : ListenerCode) (name name2 : string)
    (t : FSMTransition) (w : World) (l0 : FSMTransitionCallback)
    (rest : list FSMTransitionCallback) :
  transitions (this w) !! name = Some t →
  legal t w →
  callbacks (FSMTransition.dest t) w = l0 :: rest →
  (transitions (this w) !! name2 = None
   ∨ ∃ t2, transitions (this w) !! name2 = Some t2
           ∧ ¬ legal t2 (switched (FSMTransition.dest t) w)) →
  code l0 (_state (this w)) (FSMTransition.dest t)
       (switched (FSMTransition.dest t) w)
  = calling (move code name2) (switched (FSMTransition.dest t) w) →
  move code name w
  = {| after := switched (FSMTransition.dest t) w;
       calls := [{| callee := l0;
                    arg_instance := this (switched (FSMTransition.dest t) w);
                    arg_from := _state (this w);
                    arg_to := FSMTransition.dest t |}];
       completion := Throw (Escaped range_error_value) |}
  ∧ range_error (Escaped range_error_value)
  ∧ ¬ rejected (move code name w).
Proof.
  intros H Hl Hc Href H0.
  set (v0 := switched (FSMTransition.dest t) w) in *.
  assert (Hin : calling (move code name2) v0 = (v0, Some range_error_value)).
  { unfold calling. destruct Href as [Hn|(t2 & H2 & Hn)].
    - by rewrite (move_unregistered code name2 v0 Hn).
    - by rewrite (move_illegal code name2 t2 v0 H2 Hn). }
  rewrite Hin in H0.
  split; [exact (move_aborts code _ _ _ _ _ _ _ H Hl Hc H0)|].
  split; [done|]. by eapply legal_move_passes.
Qed.

(** On [two_listeners], listener [0] of ["C"] calls [instance.move("go")],
    which may be taken from ["A"] only: [move("go")] from ["A"] fails in
    state ["C"], and listener [1] is not called. *)
Lemma nested_refusal_escapes_witness :
  move (moving_code 1 "go") "go" two_listeners
  = {| after := switched "C" two_listeners;
       calls := [{| callee := 0;
                    arg_instance := this (switched "C" two_listeners);
                    arg_from := _state (this two_listeners);
                    arg_to := "C" |}];
       completion := Throw (Escaped range_error_value) |}
  ∧ range_error (Escaped range_error_value)
  ∧ ¬ rejected (move (moving_code 1 "go") "go" two_listeners).
Proof.
  apply (nested_refusal_escapes (moving_code 1 "go") "go" "go"
           (FSMTransition.make "go" ["A"] "C" false) two_listeners 0 [1]).
  - vm_compute. reflexivity.
  - right. vm_compute. left.
  - vm_compute. reflexivity.
  - right. exists (FSMTransition.make "go" ["A"] "C" false).
    split; [vm_compute; reflexivity|].
    intros [Hw|Hs]; [discriminate Hw|].
    change ("C" ∈ ["A"]) in Hs.
    apply list_elem_of_singleton in Hs. discriminate Hs.
  - vm_compute. reflexivity.
Defined.
